(** * Mario expert agent: perception and decision core

    Shallow embedding of [scripts/mario_expert.py] (class [MarioExpert]):
    the tile-grid feature extractors, the priority cascade of
    [choose_action] and its anti-oscillation guard, followed by the
    properties of the specification that concern them.

    Python integers are unbounded, hence [Z].  The game area is a
    two-dimensional numpy array; reading it with an index outside
    [-n, n) raises [IndexError], and a negative index inside that range
    wraps around to the far end of the axis. *)

From Stdlib Require Import ZArith List Bool Lia SpecFloat.
Import ListNotations.
Local Open Scope Z_scope.

(** ** Enumerations *)

(** [class Sprites(IntEnum)]: tile codes, compared numerically by the code. *)
Module Sprites.
Definition AIR : Z := 0.
Definition MARIO : Z := 1.
Definition BLOCK : Z := 10.
Definition MOVING_PLATFORM : Z := 11.
Definition BRICK : Z := 12.
Definition POWERUP_BLOCK : Z := 13.
Definition PIPE : Z := 14.
Definition GOOMBA : Z := 15.
Definition KOOPA : Z := 16.
Definition FLY : Z := 18.
Definition BEE : Z := 19.
Definition SHELL : Z := 25.
End Sprites.

(** [class Actions(IntEnum)]. *)
Inductive Actions : Type := LEFT | RIGHT | UP | JUMP | SPRINT.

Definition Actions_value (a : Actions) : Z :=
  match a with LEFT => 1 | RIGHT => 2 | UP => 3 | JUMP => 4 | SPRINT => 5 end.

Definition Actions_eqb (a b : Actions) : bool :=
  Actions_value a =? Actions_value b.

(** [self.prev_action == a], where [prev_action] starts as [None]. *)
Definition prev_is (prev : option Actions) (a : Actions) : bool :=
  match prev with
  | Some p => Actions_eqb p a
  | None => false
  end.

(** ** Exceptions *)

(** The only exception the core can raise is numpy's [IndexError]. *)
Inductive result (A : Type) : Type :=
| Ret (a : A)
| IndexError.
Arguments Ret {A} a.
Arguments IndexError {A}.

Definition bind {A B : Type} (m : result A) (k : A -> result B) : result B :=
  match m with
  | Ret a => k a
  | IndexError => IndexError
  end.

Notation "x <- m ;; k" := (bind m (fun x => k))
  (at level 61, m at next level, right associativity).
Notation "' p <- m ;; k" := (bind m (fun x => let 'p := x in k))
  (at level 61, p pattern, m at next level, right associativity).

(** ** The tile grid *)

(** A numpy array of shape [(rows, cols)]; [at_ g x y] is the content of
    the cell in row [x], column [y] for [0 <= x < rows], [0 <= y < cols]
    (its value elsewhere is never read). *)
Record ndarray : Type := mk_ndarray {
  rows : nat;
  cols : nat;
  at_ : Z -> Z -> Z
}.

Definition shape (g : ndarray) : Z * Z := (Z.of_nat (rows g), Z.of_nat (cols g)).

(** Index normalisation along an axis of length [n]: [Some] of the
    position really read, [None] when Python raises. *)
Definition py_index (n i : Z) : option Z :=
  if (0 <=? i) && (i <? n) then Some i
  else if (- n <=? i) && (i <? 0) then Some (i + n)
  else None.

(** [self.game_area[x][y]]. *)
Definition cell (g : ndarray) (x y : Z) : result Z :=
  match py_index (Z.of_nat (rows g)) x with
  | None => IndexError
  | Some x' =>
      match py_index (Z.of_nat (cols g)) y with
      | None => IndexError
      | Some y' => Ret (at_ g x' y')
      end
  end.

(** A grid written row by row, as numpy prints it; the shape is taken
    from the number of rows and the length of the first row. *)
Definition of_rows (l : list (list Z)) : ndarray :=
  {| rows := length l;
     cols := length (hd [] l);
     at_ := fun x y => nth (Z.to_nat y) (nth (Z.to_nat x) l []) 0 |}.

(** ** Loops *)

(** [range(n)]: empty when [n <= 0]. *)
Definition range (n : Z) : list Z := map Z.of_nat (seq 0 (Z.to_nat n)).

(** A [for] loop whose body may execute [return]: the body yields
    [Some v] when it returns [v] from the enclosing function and [None]
    when it falls through to the next iteration. *)
Fixpoint for_each {A B : Type} (l : list A) (body : A -> result (option B))
  : result (option B) :=
  match l with
  | [] => Ret None
  | a :: l' =>
      match body a with
      | IndexError => IndexError
      | Ret (Some b) => Ret (Some b)
      | Ret None => for_each l' body
      end
  end.

(** The value of a function made of loops followed by [return dflt]. *)
Definition or_return {B : Type} (r : result (option B)) (dflt : B) : result B :=
  o <- r ;; Ret (match o with Some b => b | None => dflt end).

(** ** Feature extractors *)

(** [get_mario_pos]: bottom right corner of the Mario sprite. *)
Definition get_mario_pos (g : ndarray) : result (Z * Z) :=
  let '(rows, cols) := shape g in
  or_return
    (for_each (range rows) (fun x =>
       for_each (range cols) (fun y =>
         v <- cell g x y ;;
         if v =? Sprites.MARIO then Ret (Some (x + 1, y + 1)) else Ret None)))
    (0, 0).

(** [get_is_airborne]: is there air beneath Mario? *)
Definition get_is_airborne (g : ndarray) (mario_pos : Z * Z) : result bool :=
  v <- cell g (fst mario_pos + 1) (snd mario_pos) ;;
  if v =? Sprites.AIR then Ret true else Ret false.

(** [get_enemy_info]: position and identity of the nearest enemy. *)
Definition get_enemy_info (g : ndarray) (mario_pos : Z * Z) : result (Z * Z * Z) :=
  let cols := snd (shape g) in
  let '(mx, my) := mario_pos in
  or_return
    (for_each (range mx) (fun xoffset =>
       let x := mx - xoffset in
       for_each (range (cols - my)) (fun yoffset =>
         let y := my + yoffset in
         v <- cell g x y ;;
         if Sprites.GOOMBA <=? v then Ret (Some (mx - x, yoffset, v))
         else Ret None)))
    (100, 100, 100).

(** The loop [while self.game_area[x][col] != AIR: x -= 1] of
    [get_obstacle_info], yielding the final [x].  Every iteration reads
    one cell; [None] stands for running out of fuel. *)
Fixpoint walk_up (fuel : nat) (g : ndarray) (x col : Z) : option (result Z) :=
  match fuel with
  | O => None
  | S fuel' =>
      match cell g x col with
      | IndexError => Some IndexError
      | Ret v =>
          if negb (v =? Sprites.AIR) then walk_up fuel' g (x - 1) col
          else Some (Ret x)
      end
  end.

(** The walk starting at row [x] reads rows [x], [x - 1], ... down to
    row [- rows] at most, and the next read, of row [- rows - 1], raises:
    [x + rows + 2] reads are all it can make, and with that much fuel
    the out-of-fuel branch is never taken ([walk_up_fuel_enough]). *)
Definition walk_fuel (g : ndarray) (x : Z) : nat :=
  S (S (Z.to_nat (x + Z.of_nat (rows g)))).

Definition while_not_air (g : ndarray) (x col : Z) : result Z :=
  match walk_up (walk_fuel g x) g x col with
  | Some r => r
  | None => IndexError
  end.

(** [get_obstacle_info]: position of the obstacle blocking Mario. *)
Definition get_obstacle_info (g : ndarray) (mario_pos : Z * Z) : result (Z * Z) :=
  let '(mx, my) := mario_pos in
  or_return
    (for_each (range 6) (fun y =>
       val <- cell g mx (my + y) ;;
       if (val =? Sprites.BRICK) || (val =? Sprites.PIPE) || (val =? Sprites.BLOCK)
       then
         x <- while_not_air g mx (my + y) ;;
         Ret (Some (y, mx - x + 1))
       else Ret None))
    (100, 100).

(** [get_platform_above]: the [and]/[or] chain is evaluated left to
    right and stops at the first operand that settles it, so the later
    cells are read only when the earlier tests succeed. *)
Definition is_platform_edge (g : ndarray) (x col : Z) : result bool :=
  v1 <- cell g x col ;;
  brick_or_block <-
    (if v1 =? Sprites.BRICK then Ret true
     else v2 <- cell g x col ;; Ret (v2 =? Sprites.BLOCK)) ;;
  if brick_or_block then
    v3 <- cell g (x - 1) col ;;
    if v3 =? Sprites.AIR then
      v4 <- cell g x (col - 1) ;;
      Ret (v4 =? Sprites.AIR)
    else Ret false
  else Ret false.

Definition get_platform_above (g : ndarray) (mario_pos : Z * Z) : result (Z * Z) :=
  let '(mx, my) := mario_pos in
  or_return
    (for_each (range 6) (fun y0 =>
       let y := y0 + 1 in
       for_each (range (mx - 1)) (fun x =>
         edge <- is_platform_edge g x (my + y) ;;
         if edge then Ret (Some (mx - x, y)) else Ret None)))
    (100, 100).

(** [get_pit_info]: size and position of the pit in front of Mario. *)
Definition get_pit_info (g : ndarray) (mario_pos : Z * Z) : result (Z * Z * Z) :=
  let '(rows, cols) := shape g in
  let '(mx, my) := mario_pos in
  or_return
    (for_each (range (cols - my)) (fun yoffset =>
       let y := my + yoffset in
       v1 <- cell g (mx + 1) y ;;
       is_pit <-
         (if v1 =? Sprites.AIR
          then v2 <- cell g 15 y ;; Ret (v2 =? Sprites.AIR)
          else Ret false) ;;
       if is_pit then
         for_each (range rows) (fun a =>
           for_each (range (cols - y)) (fun boffset =>
             let b := y + boffset in
             w1 <- cell g a b ;;
             in_range <-
               (if Sprites.BLOCK <=? w1
                then w2 <- cell g a b ;; Ret (w2 <=? Sprites.PIPE)
                else Ret false) ;;
             if in_range then Ret (Some (yoffset, mx - a, b - my))
             else Ret None))
       else Ret None))
    (100, 100, 100).

(** [get_pythag_dist]: [math.ceil(math.sqrt(a**2 + b**2))], as the
    cascade uses it: on offsets inside the game area.  There the double
    precision computation of line 208, [get_pythag_dist_double] below,
    yields the integer ceiling of the square root
    ([get_pythag_dist_double_exact]); on large arguments it does not, and
    the two definitions differ. *)
Definition ceil_sqrt (n : Z) : Z :=
  let r := Z.sqrt n in
  if r * r =? n then r else r + 1.

Definition get_pythag_dist (a b : Z) : Z := ceil_sqrt (a ^ 2 + b ^ 2).

(** *** Line 208 in double precision

    [a**2 + b**2] is an exact integer; [math.sqrt] converts it to a
    double, rounding to nearest even, and raises [OverflowError] when it
    is too large for one, then takes the correctly rounded square root;
    [math.ceil] returns the integer ceiling of that double.  Doubles
    are IEEE 754 binary64: 53 bits of precision, exponents below 1024. *)
Inductive math_result (A : Type) : Type :=
| Value (a : A)
| OverflowError
| ValueError.
Arguments Value {A} a.
Arguments OverflowError {A}.
Arguments ValueError {A}.

(** [float(n)]: "int too large to convert to float" when the rounded
    value is not finite. *)
Definition float_of_int (n : Z) : math_result spec_float :=
  match binary_normalize 53 1024 n 0 false with
  | S754_infinity _ => OverflowError
  | x => Value x
  end.

(** [math.sqrt(n)] on an integer: "math domain error" below zero. *)
Definition math_sqrt (n : Z) : math_result spec_float :=
  match float_of_int n with
  | Value x =>
      match SFsqrt 53 1024 x with
      | S754_nan => ValueError
      | y => Value y
      end
  | OverflowError => OverflowError
  | ValueError => ValueError
  end.

(** [math.ceil(x)] on a double: the least integer not below it. *)
Definition math_ceil (x : spec_float) : math_result Z :=
  match x with
  | S754_zero _ => Value 0
  | S754_infinity _ => OverflowError
  | S754_nan => ValueError
  | S754_finite s m e =>
      let z := if s then Z.neg m else Z.pos m in
      match e with
      | Z.neg k => Value (- ((- z) / 2 ^ Z.pos k))
      | _ => Value (z * 2 ^ e)
      end
  end.

Definition get_pythag_dist_double (a b : Z) : math_result Z :=
  match math_sqrt (a ^ 2 + b ^ 2) with
  | Value x => math_ceil x
  | OverflowError => OverflowError
  | ValueError => ValueError
  end.

(** Does the double precision computation yield the integer ceiling of
    the square root of [n]? *)
Definition double_exact_at (n : Z) : bool :=
  match math_sqrt n with
  | Value x =>
      match math_ceil x with
      | Value d => d =? ceil_sqrt n
      | _ => false
      end
  | _ => false
  end.

(** ** The decision policy *)

(** The agent's fields that [choose_action] reads or writes.  All three
    start as [None] in [__init__]. *)
Record MarioExpert : Type := mk_MarioExpert {
  prev_action : option Actions;
  mario_pos : option (Z * Z);
  game_area : option ndarray
}.

Definition init : MarioExpert :=
  {| prev_action := None; mario_pos := None; game_area := None |}.

(** The local variables of [choose_action] holding what the extractors
    returned (lines 219-223). *)
Record observations : Type := mk_observations {
  enemy_info : Z * Z * Z;
  pit_info : Z * Z * Z;
  obstacle_info : Z * Z;
  is_airborne : bool;
  platform : Z * Z
}.

Definition observe (g : ndarray) (pos : Z * Z) : result observations :=
  enemy_info <- get_enemy_info g pos ;;
  pit_info <- get_pit_info g pos ;;
  obstacle_info <- get_obstacle_info g pos ;;
  is_airborne <- get_is_airborne g pos ;;
  platform <- get_platform_above g pos ;;
  Ret (mk_observations enemy_info pit_info obstacle_info is_airborne platform).

(** The branches of the [if]/[elif] chain of lines 228-264, each named
    after the message it prints ([Default]: none of them, the command
    stays [RIGHT], [1]). *)
Inductive rule : Type :=
| Obstacle_hop      (* "Jump over obstacle of height" *)
| Platform_hop      (* "Jump onto platform at" *)
| Ground_threat     (* "Goomba/Koopa ahead" *)
| Flying_threat     (* "Fly ahead" *)
| Pit_ahead         (* "Pit is ... away" *)
| Default.

(** The conditions of the chain, in the order they are tested. *)
Definition rule_obstacle (o : observations) : bool :=
  let '(obstacle0, _) := obstacle_info o in
  (obstacle0 <? 3) && Bool.eqb (is_airborne o) false.

Definition rule_platform (o : observations) : bool :=
  let '(obstacle0, _) := obstacle_info o in
  let '(platform0, platform1) := platform o in
  (platform1 <? 6) && (platform0 <? 6) && negb (platform0 =? obstacle0).

Definition rule_ground_enemy (o : observations) : bool :=
  let '(_, enemy1, enemy2) := enemy_info o in
  (enemy2 <? 18) && (enemy1 <? 2).

Definition rule_fly (o : observations) : bool :=
  let '(_, enemy1, enemy2) := enemy_info o in
  (enemy2 =? 19) && (enemy1 <? 4).

Definition rule_pit (o : observations) : bool :=
  let '(pit0, _, _) := pit_info o in
  (pit0 <? 2) && Bool.eqb (is_airborne o) false.

Definition matching_rule (o : observations) : rule :=
  if rule_obstacle o then Obstacle_hop
  else if rule_platform o then Platform_hop
  else if rule_ground_enemy o then Ground_threat
  else if rule_fly o then Flying_threat
  else if rule_pit o then Pit_ahead
  else Default.

(** The command each branch assigns to [action], [duration]. *)
Definition select (o : observations) (prev : option Actions) : Actions * Z :=
  let '(enemy0, _, _) := enemy_info o in
  let '(pit0, pit1, pit2) := pit_info o in
  let '(_, obstacle1) := obstacle_info o in
  let '(platform0, platform1) := platform o in
  match matching_rule o with
  | Obstacle_hop => (JUMP, obstacle1 * 2)
  | Platform_hop =>
      let duration := platform0 * 3 in
      let duration := if pit0 <? platform1 then duration + 10 else duration in
      (JUMP, duration)
  | Ground_threat => if prev_is prev JUMP then (LEFT, 1) else (JUMP, 1)
  | Flying_threat => (JUMP, enemy0 + 10)
  | Pit_ahead => (JUMP, get_pythag_dist (Z.max 4 pit1) pit2)
  | Default => (RIGHT, 1)
  end.

(** Lines 266-270: "Prevent Mario from getting stuck". *)
Definition guard (prev : option Actions) (cmd : Actions * Z) : Actions * Z :=
  let '(action, duration) := cmd in
  if prev_is prev action && Actions_eqb action JUMP then (RIGHT, 1)
  else (action, duration).

(** Line 216: "Break if Mario is out of bounds (Dead or Level Complete)". *)
Definition out_of_bounds (pos : Z * Z) : bool :=
  (15 <=? fst pos) || (15 <=? snd pos).

(** [choose_action]: the grid is what [self.environment.game_area()]
    hands over; the outcome is the returned command or the exception,
    together with the agent's fields afterwards. *)
Definition choose_action (env_game_area : ndarray) (self : MarioExpert)
  : result (Actions * Z) * MarioExpert :=
  let self := {| prev_action := prev_action self;
                 mario_pos := mario_pos self;
                 game_area := Some env_game_area |} in
  match get_mario_pos env_game_area with
  | IndexError => (IndexError, self)
  | Ret pos =>
      let self := {| prev_action := prev_action self;
                     mario_pos := Some pos;
                     game_area := game_area self |} in
      if out_of_bounds pos then (Ret (RIGHT, 1), self)
      else
        match observe env_game_area pos with
        | IndexError => (IndexError, self)
        | Ret o =>
            let '(action, duration) := guard (prev_action self) (select o (prev_action self)) in
            (Ret (action, duration),
             {| prev_action := Some action;
                mario_pos := mario_pos self;
                game_area := game_area self |})
        end
  end.

(** [play]: one [step] per grid the environment produces, until the
    game is over or an exception ends the run; the commands handed to
    [run_action], in order. *)
Fixpoint play (episode : list ndarray) (self : MarioExpert) : list (Actions * Z) :=
  match episode with
  | [] => []
  | g :: episode' =>
      match choose_action g self with
      | (Ret cmd, self') => cmd :: play episode' self'
      | (IndexError, _) => []
      end
  end.

(** ** Notions used by the statements *)

(** The player anchor of a grid: what [get_mario_pos] returns (it never
    raises, see [get_mario_pos_anchor]). *)
Definition anchor (g : ndarray) : Z * Z :=
  match get_mario_pos g with
  | Ret pos => pos
  | IndexError => (0, 0)
  end.

(** What the specification asks of every call: the action returned is
    the one found in [prev_action] afterwards. *)
Definition tracks_returned_action (g : ndarray) (self : MarioExpert) : Prop :=
  forall (a : Actions) (d : Z) (self' : MarioExpert),
    choose_action g self = (Ret (a, d), self') -> prev_action self' = Some a.

(** [d] is the ceiling of the square root of [n]: the least natural
    number whose square reaches [n]. *)
Definition is_ceil_sqrt (n d : Z) : Prop :=
  0 <= d /\ n <= d * d /\ forall k, 0 <= k -> n <= k * k -> d <= k.

(** No command of a stream is a [JUMP] directly followed by a [JUMP]. *)
Fixpoint no_consecutive_jumps (l : list (Actions * Z)) : Prop :=
  match l with
  | [] => True
  | (a, _) :: l' =>
      match l' with
      | [] => True
      | (b, _) :: _ => ~ (a = JUMP /\ b = JUMP)
      end /\ no_consecutive_jumps l'
  end.

(** Column [col] holds a stack of exactly [h] cells that are not air,
    from row [x] upward, with air on top of it. *)
Definition stacked (g : ndarray) (x col : Z) (h : nat) : Prop :=
  (forall i : nat, (i < h)%nat ->
     exists v, cell g (x - Z.of_nat i) col = Ret v /\ v <> Sprites.AIR) /\
  cell g (x - Z.of_nat h) col = Ret Sprites.AIR.

(** The enemy search as the specification words it: the anchor's own
    row first, then each row above it within the grid, that is down to
    row 0, and the columns from the anchor's to the far edge. *)
Definition enemy_scan_spec (g : ndarray) (mario_pos : Z * Z) : result (Z * Z * Z) :=
  let cols := snd (shape g) in
  let '(mx, my) := mario_pos in
  or_return
    (for_each (range (mx + 1)) (fun xoffset =>
       let x := mx - xoffset in
       for_each (range (cols - my)) (fun yoffset =>
         let y := my + yoffset in
         v <- cell g x y ;;
         if Sprites.GOOMBA <=? v then Ret (Some (mx - x, yoffset, v))
         else Ret None)))
    (100, 100, 100).

(** The platform condition as the specification words it: the edge is
    within 6 rows and 6 columns and its vertical distance differs from
    the obstacle's vertical extent, its height. *)
Definition rule_platform_spec (o : observations) : bool :=
  let '(_, obstacle1) := obstacle_info o in
  let '(platform0, platform1) := platform o in
  (platform1 <? 6) && (platform0 <? 6) && negb (platform0 =? obstacle1).

(** ** Sample screens

    Game areas of the shape the emulator delivers, 16 rows of 20 tiles.
    Mario covers two by two tiles; rows 0 to 12 are air unless said
    otherwise. *)

Definition air : list Z := repeat 0 20%nat.
Definition ground : list Z := repeat Sprites.BLOCK 20%nat.

Definition mario_left : list Z :=   (* Mario in columns 4 and 5 *)
  [0;0;0;0;1;1;0;0;0;0;0;0;0;0;0;0;0;0;0;0].
Definition mario_right : list Z :=  (* Mario in columns 13 and 14 *)
  [0;0;0;0;0;0;0;0;0;0;0;0;0;1;1;0;0;0;0;0].

(** Mario on flat ground with nothing around, anchor (14, 5). *)
Definition screen_flat : ndarray :=
  of_rows (repeat air 13 ++ [mario_left; mario_left; ground]).

(** The same further right, anchor (14, 14). *)
Definition screen_flat_right : ndarray :=
  of_rows (repeat air 13 ++ [mario_right; mario_right; ground]).

(** A wall of blocks as tall as the screen in column 6. *)
Definition screen_wall : ndarray :=
  of_rows (repeat [0;0;0;0;0;0;10;0;0;0;0;0;0;0;0;0;0;0;0;0] 13 ++
           [ [0;0;0;0;1;1;10;0;0;0;0;0;0;0;0;0;0;0;0;0];
             [0;0;0;0;1;1;10;0;0;0;0;0;0;0;0;0;0;0;0;0];
             ground ]).

(** A pipe two tiles tall in the column next to Mario. *)
Definition screen_pipe : ndarray :=
  of_rows (repeat air 13 ++
           [ [0;0;0;0;1;1;14;0;0;0;0;0;0;0;0;0;0;0;0;0];
             [0;0;0;0;1;1;14;0;0;0;0;0;0;0;0;0;0;0;0;0];
             ground ]).

(** An enemy of code [enemy] two rows up and two columns ahead. *)
Definition screen_enemy (enemy : Z) : ndarray :=
  of_rows (repeat air 12 ++
           [ [0;0;0;0;0;0;0;enemy;0;0;0;0;0;0;0;0;0;0;0;0];
             mario_left; mario_left; ground ]).

(** A pit of four columns starting one column ahead, and a power-up
    block five rows up, four columns ahead. *)
Definition screen_pit : ndarray :=
  of_rows (repeat air 9 ++
           [ [0;0;0;0;0;0;0;0;0;13;0;0;0;0;0;0;0;0;0;0] ] ++
           repeat air 3 ++
           [ mario_left; mario_left;
             [10;10;10;10;10;10;0;0;0;0;10;10;10;10;10;10;10;10;10;10] ]).

(** A block three columns ahead on the ground and a brick three rows
    up, two columns ahead. *)
Definition screen_brick : ndarray :=
  of_rows (repeat air 11 ++
           [ [0;0;0;0;0;0;0;12;0;0;0;0;0;0;0;0;0;0;0;0];
             air;
             mario_left;
             [0;0;0;0;1;1;0;0;10;0;0;0;0;0;0;0;0;0;0;0];
             ground ]).

(** Only the brick three rows up, two columns ahead. *)
Definition screen_ledge : ndarray :=
  of_rows (repeat air 11 ++
           [ [0;0;0;0;0;0;0;12;0;0;0;0;0;0;0;0;0;0;0;0];
             air; mario_left; mario_left; ground ]).

(** A goomba on the ground in the column next to Mario. *)
Definition screen_goomba : ndarray :=
  of_rows (repeat air 13 ++
           [ mario_left;
             [0;0;0;0;1;1;15;0;0;0;0;0;0;0;0;0;0;0;0;0];
             ground ]).

(** A bee in the top row, three columns ahead. *)
Definition screen_bee_top : ndarray :=
  of_rows ([ [0;0;0;0;0;0;0;0;19;0;0;0;0;0;0;0;0;0;0;0] ] ++
           repeat air 12 ++ [mario_left; mario_left; ground]).

(** Mario falling through the pit: his lower tiles are in the bottom
    row, anchor (15, 8). *)
Definition screen_falling : ndarray :=
  of_rows (repeat air 14 ++
           [ [0;0;0;0;0;0;0;1;1;0;0;0;0;0;0;0;0;0;0;0];
             [10;10;10;10;10;10;0;1;1;0;10;10;10;10;10;10;10;10;10;10] ]).

(** What the extractors report on these screens (anchor (14, 5)). *)
Definition seen_pipe : observations :=
  mk_observations (100, 100, 100) (100, 100, 100) (1, 3) false (100, 100).
Definition seen_enemy (enemy : Z) : observations :=
  mk_observations (2, 2, enemy) (100, 100, 100) (100, 100) false (100, 100).
Definition seen_pit : observations :=
  mk_observations (100, 100, 100) (1, 5, 4) (100, 100) false (100, 100).
Definition seen_brick : observations :=
  mk_observations (100, 100, 100) (100, 100, 100) (3, 2) false (3, 2).

Definition seen_ledge : observations :=
  mk_observations (100, 100, 100) (100, 100, 100) (100, 100) false (3, 2).

Definition seen_goomba : observations :=
  mk_observations (0, 1, 15) (100, 100, 100) (100, 100) false (100, 100).

Definition after (a : Actions) : MarioExpert :=
  {| prev_action := Some a; mario_pos := None; game_area := None |}.

(** ** The controller *)

(** The input events of the emulator that [MarioController] uses
    ([pyboy.utils.WindowEvent]). *)
Inductive WindowEvent : Type :=
| PRESS_ARROW_DOWN | PRESS_ARROW_LEFT | PRESS_ARROW_RIGHT | PRESS_ARROW_UP
| PRESS_BUTTON_A | PRESS_BUTTON_B
| RELEASE_ARROW_DOWN | RELEASE_ARROW_LEFT | RELEASE_ARROW_RIGHT | RELEASE_ARROW_UP
| RELEASE_BUTTON_A | RELEASE_BUTTON_B.

(** The two lists built in [MarioController.__init__]. *)
Definition valid_actions : list WindowEvent :=
  [PRESS_ARROW_DOWN; PRESS_ARROW_LEFT; PRESS_ARROW_RIGHT; PRESS_ARROW_UP;
   PRESS_BUTTON_A; PRESS_BUTTON_B].

Definition release_button : list WindowEvent :=
  [RELEASE_ARROW_DOWN; RELEASE_ARROW_LEFT; RELEASE_ARROW_RIGHT; RELEASE_ARROW_UP;
   RELEASE_BUTTON_A; RELEASE_BUTTON_B].

(** A call on [self.pyboy]. *)
Inductive pyboy_call : Type :=
| send_input (e : WindowEvent)
| tick.

(** [l[i]] on a Python list. *)
Definition list_index {A : Type} (l : list A) (i : Z) : result A :=
  match py_index (Z.of_nat (length l)) i with
  | Some j =>
      match nth_error l (Z.to_nat j) with
      | Some a => Ret a
      | None => IndexError
      end
  | None => IndexError
  end.

(** [for _ in range(self.act_freq * duration): self.pyboy.tick()]. *)
Definition ticks (act_freq duration : Z) : list pyboy_call :=
  map (fun _ => tick) (range (act_freq * duration)).

(** [MarioController.run_action]: the calls made on the emulator, in
    order. *)
Definition run_action (act_freq : Z) (action : Actions) (duration : Z)
  : result (list pyboy_call) :=
  if Actions_eqb action JUMP then
    p1 <- list_index valid_actions (Actions_value RIGHT) ;;
    p2 <- list_index valid_actions (Actions_value SPRINT) ;;
    p3 <- list_index valid_actions (Actions_value JUMP) ;;
    r1 <- list_index release_button (Actions_value JUMP) ;;
    r2 <- list_index release_button (Actions_value SPRINT) ;;
    r3 <- list_index release_button (Actions_value RIGHT) ;;
    Ret ([send_input p1; send_input p2; send_input p3]
         ++ ticks act_freq duration
         ++ [send_input r1; send_input r2; send_input r3])
  else if Actions_eqb action RIGHT then
    p1 <- list_index valid_actions (Actions_value RIGHT) ;;
    p2 <- list_index valid_actions (Actions_value SPRINT) ;;
    r1 <- list_index release_button (Actions_value SPRINT) ;;
    r2 <- list_index release_button (Actions_value RIGHT) ;;
    Ret ([send_input p1; send_input p2]
         ++ ticks act_freq duration
         ++ [send_input r1; send_input r2])
  else
    p1 <- list_index valid_actions (Actions_value action) ;;
    r1 <- list_index release_button (Actions_value action) ;;
    Ret ([send_input p1] ++ ticks act_freq duration ++ [send_input r1]).

(** [MarioExpert.step]: the controller of the agent is built with the
    default [act_freq], 1. *)
Definition step (g : ndarray) (self : MarioExpert)
  : result (list pyboy_call) * MarioExpert :=
  match choose_action g self with
  | (Ret (action, duration), self') => (run_action 1 action duration, self')
  | (IndexError, self') => (IndexError, self')
  end.

(** The release event in the same position of [release_button] as a
    press event in [valid_actions]. *)
Definition release_of (e : WindowEvent) : WindowEvent :=
  match e with
  | PRESS_ARROW_DOWN => RELEASE_ARROW_DOWN
  | PRESS_ARROW_LEFT => RELEASE_ARROW_LEFT
  | PRESS_ARROW_RIGHT => RELEASE_ARROW_RIGHT
  | PRESS_ARROW_UP => RELEASE_ARROW_UP
  | PRESS_BUTTON_A => RELEASE_BUTTON_A
  | PRESS_BUTTON_B => RELEASE_BUTTON_B
  | e => e
  end.

(** The number of [tick] calls in a sequence of calls. *)
Fixpoint count_ticks (calls : list pyboy_call) : nat :=
  match calls with
  | [] => O
  | tick :: calls' => S (count_ticks calls')
  | send_input _ :: calls' => count_ticks calls'
  end.

(** The tiles [get_obstacle_info] takes for an obstacle. *)
Definition obstacle_tile (v : Z) : bool :=
  (v =? Sprites.BRICK) || (v =? Sprites.PIPE) || (v =? Sprites.BLOCK).

(** * Properties *)

(** ** Indexing and loops *)

Lemma py_index_in_range (n i : Z) : 0 <= i < n -> py_index n i = Some i.
Proof.
  intros H. unfold py_index.
  replace (0 <=? i) with true by (symmetry; apply Z.leb_le; lia).
  replace (i <? n) with true by (symmetry; apply Z.ltb_lt; lia).
  reflexivity.
Qed.

Lemma py_index_Some (n i j : Z) :
  py_index n i = Some j -> - n <= i < n /\ 0 <= j < n.
Proof.
  unfold py_index.
  destruct (0 <=? i) eqn:H0; destruct (i <? n) eqn:H1; simpl;
    destruct (- n <=? i) eqn:H2; destruct (i <? 0) eqn:H3; simpl;
    intros H; inversion H; subst; clear H;
    repeat match goal with
           | H : (_ <=? _) = true |- _ => apply Z.leb_le in H
           | H : (_ <=? _) = false |- _ => apply Z.leb_gt in H
           | H : (_ <? _) = true |- _ => apply Z.ltb_lt in H
           | H : (_ <? _) = false |- _ => apply Z.ltb_ge in H
           end; lia.
Qed.

Lemma py_index_None (n i : Z) : py_index n i = None <-> i < - n \/ n <= i.
Proof.
  unfold py_index.
  destruct (0 <=? i) eqn:H0; destruct (i <? n) eqn:H1; simpl;
    destruct (- n <=? i) eqn:H2; destruct (i <? 0) eqn:H3; simpl;
    repeat match goal with
           | H : (_ <=? _) = true |- _ => apply Z.leb_le in H
           | H : (_ <=? _) = false |- _ => apply Z.leb_gt in H
           | H : (_ <? _) = true |- _ => apply Z.ltb_lt in H
           | H : (_ <? _) = false |- _ => apply Z.ltb_ge in H
           end; split; intros H; try discriminate; try lia; reflexivity.
Qed.

(** A read inside the shape succeeds and yields the cell. *)
Lemma cell_in_range (g : ndarray) (x y : Z) :
  0 <= x < Z.of_nat (rows g) -> 0 <= y < Z.of_nat (cols g) ->
  cell g x y = Ret (at_ g x y).
Proof.
  intros Hx Hy. unfold cell.
  rewrite (py_index_in_range _ _ Hx), (py_index_in_range _ _ Hy). reflexivity.
Qed.

(** A read succeeds only with both indices in [-n, n). *)
Lemma cell_Ret_inv (g : ndarray) (x y v : Z) :
  cell g x y = Ret v ->
  - Z.of_nat (rows g) <= x < Z.of_nat (rows g) /\
  - Z.of_nat (cols g) <= y < Z.of_nat (cols g).
Proof.
  unfold cell.
  destruct (py_index (Z.of_nat (rows g)) x) as [x'|] eqn:Hx; [|discriminate].
  destruct (py_index (Z.of_nat (cols g)) y) as [y'|] eqn:Hy; [|discriminate].
  intros _. apply py_index_Some in Hx, Hy. lia.
Qed.

(** A read past the last column raises. *)
Lemma cell_past_last_column (g : ndarray) (x y : Z) :
  Z.of_nat (cols g) <= y -> cell g x y = IndexError.
Proof.
  intros Hy. unfold cell.
  destruct (py_index (Z.of_nat (rows g)) x); [|reflexivity].
  replace (py_index (Z.of_nat (cols g)) y) with (@None Z); [reflexivity|].
  symmetry. apply py_index_None. lia.
Qed.

Lemma In_range (n i : Z) : In i (range n) <-> 0 <= i < n.
Proof.
  unfold range. rewrite in_map_iff. split.
  - intros [k [Hk Hin]]. apply in_seq in Hin. lia.
  - intros H. exists (Z.to_nat i). split; [lia|]. apply in_seq. lia.
Qed.

(** A loop whose body never raises does not raise. *)
Lemma for_each_Ret {A B : Type} (l : list A) (body : A -> result (option B)) :
  (forall a, In a l -> exists o, body a = Ret o) ->
  exists o, for_each l body = Ret o.
Proof.
  induction l as [|a l IH]; intros H; simpl.
  - eauto.
  - destruct (H a (or_introl eq_refl)) as [o Ho]. rewrite Ho.
    destruct o as [b|]; [eauto|].
    apply IH. intros a' Ha'. apply H. right. exact Ha'.
Qed.

(** A loop whose body falls through every time falls through. *)
Lemma for_each_None {A B : Type} (l : list A) (body : A -> result (option B)) :
  (forall a, In a l -> body a = Ret None) -> for_each l body = Ret None.
Proof.
  induction l as [|a l IH]; intros H; simpl; [reflexivity|].
  rewrite (H a (or_introl eq_refl)). apply IH.
  intros a' Ha'. apply H. right. exact Ha'.
Qed.

Lemma for_each_app {A B : Type} (l1 l2 : list A) (body : A -> result (option B)) :
  for_each (l1 ++ l2) body =
  match for_each l1 body with
  | Ret None => for_each l2 body
  | r => r
  end.
Proof.
  induction l1 as [|a l1 IH]; simpl; [destruct (for_each l2 body) as [[?|]|]; reflexivity|].
  destruct (body a) as [[b|]|]; auto.
Qed.

Lemma range_succ (n : Z) : 0 <= n -> range (n + 1) = range n ++ [n].
Proof.
  intros H. unfold range.
  replace (Z.to_nat (n + 1)) with (S (Z.to_nat n)) by lia.
  rewrite seq_S, map_app. simpl.
  replace (Z.of_nat (Z.to_nat n)) with n by lia. reflexivity.
Qed.

(** ** The player anchor *)

(** [get_mario_pos] stays inside the shape: it never raises. *)
Lemma get_mario_pos_anchor (g : ndarray) : get_mario_pos g = Ret (anchor g).
Proof.
  assert (H : exists pos, get_mario_pos g = Ret pos).
  { unfold get_mario_pos, shape, or_return.
    destruct (for_each_Ret (range (Z.of_nat (rows g)))
                (fun x => for_each (range (Z.of_nat (cols g)))
                   (fun y => v <- cell g x y ;;
                      if v =? Sprites.MARIO then Ret (Some (x + 1, y + 1)) else Ret None)))
      as [o Ho].
    - intros x Hx. apply In_range in Hx. apply for_each_Ret.
      intros y Hy. apply In_range in Hy.
      rewrite (cell_in_range g x y Hx Hy). simpl.
      destruct (at_ g x y =? Sprites.MARIO); eauto.
    - rewrite Ho. simpl. eauto. }
  destruct H as [pos Hpos]. unfold anchor. rewrite Hpos. reflexivity.
Qed.

(** ** The three ways through [choose_action] *)

Lemma choose_action_boundary (g : ndarray) (self : MarioExpert) :
  out_of_bounds (anchor g) = true ->
  choose_action g self =
  (Ret (RIGHT, 1),
   {| prev_action := prev_action self;
      mario_pos := Some (anchor g);
      game_area := Some g |}).
Proof.
  intros H. unfold choose_action. rewrite get_mario_pos_anchor. simpl.
  rewrite H. reflexivity.
Qed.

Lemma choose_action_in_bounds (g : ndarray) (self : MarioExpert) (o : observations) :
  out_of_bounds (anchor g) = false ->
  observe g (anchor g) = Ret o ->
  choose_action g self =
  (Ret (guard (prev_action self) (select o (prev_action self))),
   {| prev_action := Some (fst (guard (prev_action self) (select o (prev_action self))));
      mario_pos := Some (anchor g);
      game_area := Some g |}).
Proof.
  intros H Ho. unfold choose_action. rewrite get_mario_pos_anchor. simpl.
  rewrite H, Ho.
  destruct (guard (prev_action self) (select o (prev_action self))) as [action duration].
  reflexivity.
Qed.

Lemma choose_action_raises (g : ndarray) (self : MarioExpert) :
  out_of_bounds (anchor g) = false ->
  observe g (anchor g) = IndexError ->
  choose_action g self =
  (IndexError,
   {| prev_action := prev_action self;
      mario_pos := Some (anchor g);
      game_area := Some g |}).
Proof.
  intros H Ho. unfold choose_action. rewrite get_mario_pos_anchor. simpl.
  rewrite H, Ho. reflexivity.
Qed.

Lemma out_of_bounds_true (pos : Z * Z) :
  out_of_bounds pos = true <-> 15 <= fst pos \/ 15 <= snd pos.
Proof.
  unfold out_of_bounds. rewrite orb_true_iff, !Z.leb_le. reflexivity.
Qed.

Lemma out_of_bounds_false (pos : Z * Z) :
  out_of_bounds pos = false <-> fst pos < 15 /\ snd pos < 15.
Proof.
  unfold out_of_bounds. rewrite orb_false_iff, !Z.leb_gt. reflexivity.
Qed.

(** ** The boundary check *)

(** C1 - Boundary law.  For every grid and every state of the agent, so
    whatever the previous action and whatever the extractors would see
    (enemies, obstacles, platforms, pits, air beneath), an anchor whose
    row or column has reached the edge the code tests, 15, makes
    [choose_action] return exactly (RIGHT, 1). *)
Theorem boundary_law (g : ndarray) (self : MarioExpert) :
  15 <= fst (anchor g) \/ 15 <= snd (anchor g) ->
  fst (choose_action g self) = Ret (RIGHT, 1).
Proof.
  intros H. apply out_of_bounds_true in H.
  rewrite (choose_action_boundary g self H). reflexivity.
Qed.

Lemma boundary_law_witness :
  (15 <= fst (anchor screen_falling) \/ 15 <= snd (anchor screen_falling)) /\
  fst (choose_action screen_falling (after JUMP)) = Ret (RIGHT, 1).
Proof.
  assert (H : 15 <= fst (anchor screen_falling) \/ 15 <= snd (anchor screen_falling)).
  { left. vm_compute. discriminate. }
  split; [exact H|]. apply (boundary_law screen_falling (after JUMP) H).
Defined.

(** On the game area of the emulator, 16 rows of 20 tiles, the edge the
    code tests is the last row, and the last column lies beyond it: an
    anchor in the last row or the last column is out of bounds. *)
Lemma far_edge_is_out_of_bounds (g : ndarray) :
  shape g = (16, 20) ->
  Z.of_nat (rows g) - 1 <= fst (anchor g) \/ Z.of_nat (cols g) - 1 <= snd (anchor g) ->
  out_of_bounds (anchor g) = true.
Proof.
  unfold shape. intros Hs H. inversion Hs as [[Hr Hc]].
  apply out_of_bounds_true. lia.
Qed.

(** ** The anti-oscillation guard *)

Lemma Actions_eqb_eq (a b : Actions) : Actions_eqb a b = true <-> a = b.
Proof.
  unfold Actions_eqb. rewrite Z.eqb_eq.
  destruct a, b; simpl; split; intros H; try reflexivity; discriminate.
Qed.

Lemma prev_is_true (prev : option Actions) (a : Actions) :
  prev_is prev a = true <-> prev = Some a.
Proof.
  destruct prev as [p|]; simpl.
  - rewrite Actions_eqb_eq. split; intros H; [subst|inversion H]; reflexivity.
  - split; intros H; discriminate.
Qed.

(** The guard fires exactly on a [JUMP] selected after a [JUMP]. *)
Lemma guard_fires (prev : option Actions) (action : Actions) (duration : Z) :
  prev = Some action /\ action = JUMP ->
  guard prev (action, duration) = (RIGHT, 1).
Proof.
  intros [Hp Ha]. subst. reflexivity.
Qed.

Lemma guard_passes (prev : option Actions) (action : Actions) (duration : Z) :
  ~ (prev = Some action /\ action = JUMP) ->
  guard prev (action, duration) = (action, duration).
Proof.
  intros H. unfold guard.
  destruct (prev_is prev action) eqn:Hp; [|reflexivity].
  destruct (Actions_eqb action JUMP) eqn:Ha; [|reflexivity].
  exfalso. apply H. split.
  - apply prev_is_true. exact Hp.
  - apply Actions_eqb_eq. exact Ha.
Qed.

(** After a [JUMP] the guard never lets a [JUMP] through. *)
Lemma guard_after_jump (cmd : Actions * Z) : fst (guard (Some JUMP) cmd) <> JUMP.
Proof.
  destruct cmd as [action duration]. destruct action; simpl; discriminate.
Qed.

(** C5 - Oscillation law.  For every observation bundle and previous
    action: when the action the cascade selects equals the previous
    action and is JUMP, the command is replaced by exactly (RIGHT, 1);
    in every other combination the cascade's selection is kept; and the
    command so obtained is what [choose_action] returns on every grid in
    bounds that yields this bundle. *)
Theorem oscillation_guard (o : observations) (prev : option Actions) :
  let cmd := select o prev in
  (prev = Some (fst cmd) /\ fst cmd = JUMP -> guard prev cmd = (RIGHT, 1)) /\
  (~ (prev = Some (fst cmd) /\ fst cmd = JUMP) -> guard prev cmd = cmd) /\
  (forall (g : ndarray) (self : MarioExpert),
     prev_action self = prev ->
     out_of_bounds (anchor g) = false ->
     observe g (anchor g) = Ret o ->
     fst (choose_action g self) = Ret (guard prev cmd)).
Proof.
  intros cmd. destruct cmd as [action duration] eqn:Hcmd. simpl fst.
  split; [apply guard_fires|]. split; [apply guard_passes|].
  intros g self Hprev Hb Ho.
  rewrite (choose_action_in_bounds g self o Hb Ho). simpl.
  rewrite Hprev. subst cmd. rewrite Hcmd. reflexivity.
Qed.

(** ** The previous action *)

(** C4, as stated, fails on the boundary path: with Mario in the bottom
    row after a jump, the call returns RIGHT and [prev_action] still
    holds JUMP. *)
Lemma prev_action_stale_on_boundary :
  fst (choose_action screen_falling (after JUMP)) = Ret (RIGHT, 1) /\
  prev_action (snd (choose_action screen_falling (after JUMP))) = Some JUMP /\
  ~ tracks_returned_action screen_falling (after JUMP).
Proof.
  assert (Hb : out_of_bounds (anchor screen_falling) = true) by (vm_compute; reflexivity).
  pose proof (choose_action_boundary screen_falling (after JUMP) Hb) as E.
  split; [rewrite E; reflexivity|]. split; [rewrite E; reflexivity|].
  intros H. specialize (H RIGHT 1 _ E). simpl in H. discriminate H.
Qed.

(** C4, amended - A call that passes the boundary check and returns
    leaves the action it returned in [prev_action]; the update follows
    the guard.  A call that stops at the boundary check returns
    (RIGHT, 1) and leaves [prev_action] as it was. *)
Theorem prev_action_update (g : ndarray) (self self' : MarioExpert)
  (a : Actions) (d : Z) :
  choose_action g self = (Ret (a, d), self') ->
  (out_of_bounds (anchor g) = false -> prev_action self' = Some a) /\
  (out_of_bounds (anchor g) = true ->
   (a, d) = (RIGHT, 1) /\ prev_action self' = prev_action self).
Proof.
  intros E. split; intros Hb.
  - destruct (observe g (anchor g)) as [o|] eqn:Ho.
    + rewrite (choose_action_in_bounds g self o Hb Ho) in E.
      inversion E as [[Hcmd Hself]]. simpl. rewrite Hcmd. reflexivity.
    + rewrite (choose_action_raises g self Hb Ho) in E. discriminate E.
  - rewrite (choose_action_boundary g self Hb) in E.
    inversion E. split; reflexivity.
Qed.

Lemma prev_action_update_witness :
  prev_action (snd (choose_action screen_pit init)) = Some JUMP.
Proof.
  assert (E : choose_action screen_pit init =
              (Ret (JUMP, 7), snd (choose_action screen_pit init)))
    by (vm_compute; reflexivity).
  apply (proj1 (prev_action_update screen_pit init _ JUMP 7 E)).
  vm_compute. reflexivity.
Defined.

Lemma oscillation_guard_witness :
  guard (Some JUMP) (select seen_pit (Some JUMP)) = (RIGHT, 1).
Proof.
  apply (proj1 (oscillation_guard seen_pit (Some JUMP))).
  split; vm_compute; reflexivity.
Defined.

(** ** No two jumps in a row *)

(** A call that returns [JUMP] went through the guard and recorded it. *)
Lemma returned_jump_is_recorded (g : ndarray) (self self' : MarioExpert) (d : Z) :
  choose_action g self = (Ret (JUMP, d), self') -> prev_action self' = Some JUMP.
Proof.
  intros E. destruct (out_of_bounds (anchor g)) eqn:Hb.
  - rewrite (choose_action_boundary g self Hb) in E. discriminate E.
  - destruct (observe g (anchor g)) as [o|] eqn:Ho.
    + rewrite (choose_action_in_bounds g self o Hb Ho) in E.
      inversion E as [[Hcmd Hself]]. simpl. rewrite Hcmd. reflexivity.
    + rewrite (choose_action_raises g self Hb Ho) in E. discriminate E.
Qed.

(** A call made with [JUMP] recorded does not return [JUMP]. *)
Lemma no_jump_after_recorded_jump (g : ndarray) (self self' : MarioExpert)
  (a : Actions) (d : Z) :
  prev_action self = Some JUMP ->
  choose_action g self = (Ret (a, d), self') -> a <> JUMP.
Proof.
  intros Hp E. destruct (out_of_bounds (anchor g)) eqn:Hb.
  - rewrite (choose_action_boundary g self Hb) in E.
    inversion E. discriminate.
  - destruct (observe g (anchor g)) as [o|] eqn:Ho.
    + rewrite (choose_action_in_bounds g self o Hb Ho) in E.
      inversion E as [[Hcmd Hself]]. rewrite Hp in Hcmd.
      pose proof (guard_after_jump (select o (Some JUMP))) as Hg.
      rewrite Hcmd in Hg. exact Hg.
    + rewrite (choose_action_raises g self Hb Ho) in E. discriminate E.
Qed.

(** The stream of a run has no two jumps in a row, and it does not
    start with a jump when a jump is recorded. *)
Lemma play_invariant (episode : list ndarray) :
  forall self : MarioExpert,
    no_consecutive_jumps (play episode self) /\
    (prev_action self = Some JUMP ->
     match play episode self with
     | [] => True
     | (a, _) :: _ => a <> JUMP
     end).
Proof.
  induction episode as [|g episode IH]; intros self; simpl; [split; trivial|].
  destruct (choose_action g self) as [[[a d]|] self'] eqn:E; simpl; [|split; trivial].
  destruct (IH self') as [IH1 IH2]. split.
  - split; [|exact IH1].
    destruct (play episode self') as [|[b db] rest] eqn:Hrest; [trivial|].
    intros [Ha Hb]. subst a. apply IH2; [|exact Hb].
    apply (returned_jump_is_recorded g self self' d E).
  - intros Hp. apply (no_jump_after_recorded_jump g self self' a d Hp E).
Qed.

(** C10 - Within an episode the emitted stream never holds JUMP in two
    consecutive cycles, whatever the grids and the state the episode
    starts from; and for two consecutive calls, when the first returns
    JUMP the second returns another action (a call that raises returns
    nothing and ends the stream). *)
Theorem no_two_jumps_in_a_row (episode : list ndarray) (self : MarioExpert) :
  no_consecutive_jumps (play episode self) /\
  (forall (g1 g2 : ndarray) (d1 : Z) (self1 : MarioExpert),
     choose_action g1 self = (Ret (JUMP, d1), self1) ->
     match fst (choose_action g2 self1) with
     | Ret (a2, _) => a2 <> JUMP
     | IndexError => True
     end).
Proof.
  split; [apply play_invariant|].
  intros g1 g2 d1 self1 E1.
  pose proof (returned_jump_is_recorded g1 self self1 d1 E1) as Hp.
  destruct (choose_action g2 self1) as [[[a2 d2]|] self2] eqn:E2; simpl; [|trivial].
  apply (no_jump_after_recorded_jump g2 self1 self2 a2 d2 Hp E2).
Qed.

Lemma no_two_jumps_in_a_row_witness :
  fst (choose_action screen_pit init) = Ret (JUMP, 7) /\
  fst (choose_action screen_pit (snd (choose_action screen_pit init))) = Ret (RIGHT, 1) /\
  match fst (choose_action screen_pit (snd (choose_action screen_pit init))) with
  | Ret (a2, _) => a2 <> JUMP
  | IndexError => True
  end.
Proof.
  split; [vm_compute; reflexivity|]. split; [vm_compute; reflexivity|].
  apply (proj2 (no_two_jumps_in_a_row [] init) screen_pit screen_pit 7).
  vm_compute. reflexivity.
Defined.

(** ** The cascade *)

Lemma matching_rule_platform (o : observations) :
  rule_obstacle o = false ->
  (matching_rule o = Platform_hop <-> rule_platform o = true).
Proof.
  intros H. unfold matching_rule. rewrite H.
  destruct (rule_platform o); [split; reflexivity|].
  destruct (rule_ground_enemy o), (rule_fly o), (rule_pit o);
    split; intros E; discriminate E.
Qed.

Lemma matching_rule_pit (o : observations) :
  rule_obstacle o = false -> rule_platform o = false ->
  rule_ground_enemy o = false -> rule_fly o = false ->
  rule_pit o = true ->
  matching_rule o = Pit_ahead.
Proof.
  intros H1 H2 H3 H4 H5. unfold matching_rule.
  rewrite H1, H2, H3, H4, H5. reflexivity.
Qed.

(** ** The pit rule *)

Lemma ceil_sqrt_spec (n : Z) : 0 <= n -> is_ceil_sqrt n (ceil_sqrt n).
Proof.
  intros Hn. unfold ceil_sqrt, is_ceil_sqrt.
  pose proof (Z.sqrt_spec n Hn) as Hs. cbv zeta in Hs.
  pose proof (Z.sqrt_nonneg n) as Hr.
  destruct (Z.sqrt n * Z.sqrt n =? n) eqn:E.
  - apply Z.eqb_eq in E. split; [lia|]. split; [lia|].
    intros k Hk Hnk. nia.
  - apply Z.eqb_neq in E. split; [lia|]. split; [lia|].
    intros k Hk Hnk. nia.
Qed.

(** [get_pythag_dist a b] is the ceiling of the square root of
    [a^2 + b^2]. *)
Lemma get_pythag_dist_ceil (a b : Z) :
  is_ceil_sqrt (a ^ 2 + b ^ 2) (get_pythag_dist a b).
Proof.
  unfold get_pythag_dist. apply ceil_sqrt_spec.
  rewrite !Z.pow_2_r. nia.
Qed.

(** ** The platform rule *)

(** C8, as stated, fails: on [screen_brick] the obstacle rule does not
    fire and the brick is an edge within 6 rows and 6 columns whose
    vertical distance, 3, differs from the obstacle's height, 2, yet the
    platform rule does not fire: 3 is also the obstacle's column offset,
    which is what the code compares with. *)
Lemma platform_rule_ignores_obstacle_height :
  observe screen_brick (anchor screen_brick) = Ret seen_brick /\
  rule_obstacle seen_brick = false /\
  rule_platform_spec seen_brick = true /\
  matching_rule seen_brick = Default /\
  fst (choose_action screen_brick init) = Ret (RIGHT, 1).
Proof.
  repeat split; vm_compute; reflexivity.
Qed.

(** C8, amended - Where the obstacle rule does not fire, the platform
    rule fires exactly when the platform edge is less than 6 rows up and
    less than 6 columns ahead and its vertical distance differs from the
    obstacle's column offset; it selects JUMP for three times the
    vertical distance, plus 10 exactly when the pit starts at a column
    offset strictly below the platform's; [choose_action] returns that
    command unless the previous action was JUMP. *)
Theorem platform_hop (o : observations) (prev : option Actions)
  (oc oh pv pc start v s : Z) :
  obstacle_info o = (oc, oh) -> platform o = (pv, pc) ->
  pit_info o = (start, v, s) ->
  rule_obstacle o = false ->
  let d := pv * 3 + (if start <? pc then 10 else 0) in
  (matching_rule o = Platform_hop <-> pc < 6 /\ pv < 6 /\ pv <> oc) /\
  (matching_rule o = Platform_hop ->
   select o prev = (JUMP, d) /\
   forall (g : ndarray) (self : MarioExpert),
     prev_action self = prev -> prev <> Some JUMP ->
     out_of_bounds (anchor g) = false ->
     observe g (anchor g) = Ret o ->
     fst (choose_action g self) = Ret (JUMP, d)).
Proof.
  intros Hobs Hplat Hpit H2 d. split.
  - rewrite (matching_rule_platform o H2). unfold rule_platform.
    rewrite Hobs, Hplat. rewrite !andb_true_iff, negb_true_iff.
    rewrite !Z.ltb_lt, Z.eqb_neq. tauto.
  - intros Hm.
    assert (Hsel : select o prev = (JUMP, d)).
    { unfold select. rewrite Hm, Hobs, Hplat, Hpit.
      destruct (enemy_info o) as [[? ?] ?]. subst d.
      destruct (start <? pc); f_equal; lia. }
    split; [exact Hsel|].
    intros g self Hprev Hnj Hb Ho.
    rewrite (choose_action_in_bounds g self o Hb Ho). simpl.
    rewrite Hprev, Hsel. rewrite guard_passes; [reflexivity|].
    intros [Hp _]. apply Hnj. exact Hp.
Qed.

Lemma platform_hop_witness : fst (choose_action screen_ledge init) = Ret (JUMP, 9).
Proof.
  assert (Hb : out_of_bounds (anchor screen_ledge) = false) by (vm_compute; reflexivity).
  assert (Ho : observe screen_ledge (anchor screen_ledge) = Ret seen_ledge)
    by (vm_compute; reflexivity).
  destruct (platform_hop seen_ledge None 100 100 3 2 100 100 100
              eq_refl eq_refl eq_refl eq_refl) as [Hiff Hsel].
  assert (Hm : matching_rule seen_ledge = Platform_hop).
  { apply Hiff. lia. }
  destruct (Hsel Hm) as [_ H].
  apply (H screen_ledge init eq_refl); [discriminate|exact Hb|exact Ho].
Defined.

(** ** Reads outside the grid *)

(** The upward walk ends, with an exception if not with a row: the fuel
    of [while_not_air] is never used up. *)
Lemma walk_up_fuel_enough (g : ndarray) (col : Z) (fuel : nat) :
  forall x : Z,
    x + Z.of_nat (rows g) + 2 <= Z.of_nat fuel -> (1 <= fuel)%nat ->
    walk_up fuel g x col <> None.
Proof.
  induction fuel as [|fuel IH]; intros x Hx H1; [lia|]. simpl.
  destruct (cell g x col) as [v|] eqn:Hc; [|discriminate].
  destruct (negb (v =? Sprites.AIR)); [|discriminate].
  apply cell_Ret_inv in Hc. apply IH; lia.
Qed.

Lemma while_not_air_walk (g : ndarray) (x col : Z) :
  walk_up (walk_fuel g x) g x col = Some (while_not_air g x col).
Proof.
  unfold while_not_air.
  destruct (walk_up (walk_fuel g x) g x col) as [r|] eqn:E; [reflexivity|].
  exfalso. apply (walk_up_fuel_enough g col (walk_fuel g x) x); [| |exact E];
    unfold walk_fuel; lia.
Qed.

(** More fuel does not change the outcome of a walk that ended. *)
Lemma walk_up_more_fuel (g : ndarray) (col : Z) (fuel : nat) :
  forall (x : Z) (r : result Z) (fuel' : nat),
    walk_up fuel g x col = Some r -> (fuel <= fuel')%nat ->
    walk_up fuel' g x col = Some r.
Proof.
  induction fuel as [|fuel IH]; intros x r fuel' H Hle; [discriminate H|].
  destruct fuel' as [|fuel']; [lia|]. simpl in *.
  destruct (cell g x col) as [v|]; [|exact H].
  destruct (negb (v =? Sprites.AIR)); [|exact H].
  apply (IH _ _ _ H). lia.
Qed.

(** C2 - Not every scan is bounds-checked.  Mario stands on flat
    ground with nothing around and his right tiles in column 14: the
    anchor (14, 14) passes the boundary check, the scan for a platform
    moves on to columns 15 to 20, and the read of column 20 in a grid
    of 20 columns raises [IndexError] instead of yielding the sentinel;
    [choose_action] ends with that exception. *)
Theorem platform_scan_leaves_grid :
  shape screen_flat_right = (16, 20) /\
  anchor screen_flat_right = (14, 14) /\
  out_of_bounds (anchor screen_flat_right) = false /\
  get_platform_above screen_flat_right (anchor screen_flat_right) = IndexError /\
  fst (choose_action screen_flat_right init) = IndexError.
Proof.
  repeat split; vm_compute; reflexivity.
Qed.

(** The upward walk has no bound either: along a column without air it
    climbs to row 0, wraps around through the rows -1 to -16 and raises
    at row -17. *)
Lemma upward_walk_leaves_grid :
  out_of_bounds (anchor screen_wall) = false /\
  walk_up 31 screen_wall 14 6 = None /\
  walk_up 32 screen_wall 14 6 = Some IndexError /\
  get_obstacle_info screen_wall (anchor screen_wall) = IndexError /\
  fst (choose_action screen_wall init) = IndexError.
Proof.
  repeat split; vm_compute; reflexivity.
Qed.

Lemma for_each_Some_inv {A B : Type} (l : list A) (body : A -> result (option B))
  (b : B) :
  for_each l body = Ret (Some b) -> exists a, In a l /\ body a = Ret (Some b).
Proof.
  induction l as [|a l IH]; simpl; intros H; [discriminate H|].
  destruct (body a) as [[b'|]|] eqn:E.
  - exists a. split; [left; reflexivity|]. rewrite E. exact H.
  - destruct (IH H) as [a' [Hin Ha']]. exists a'. split; [right; exact Hin|exact Ha'].
  - discriminate H.
Qed.

Lemma range_cons (n : Z) : 1 <= n -> exists l, range n = 0 :: l.
Proof.
  intros H. unfold range.
  destruct (Z.to_nat n) as [|k] eqn:E; [lia|].
  simpl. eauto.
Qed.

(** The anchor has no negative coordinate. *)
Lemma anchor_nonneg (g : ndarray) : 0 <= fst (anchor g) /\ 0 <= snd (anchor g).
Proof.
  pose proof (get_mario_pos_anchor g) as H.
  unfold get_mario_pos, shape, or_return in H.
  destruct (for_each (range (Z.of_nat (rows g))) _) as [[pos|]|] eqn:E;
    simpl in H; inversion H as [Hpos]; [|simpl; lia].
  apply for_each_Some_inv in E. destruct E as [x [Hx E]].
  apply for_each_Some_inv in E. destruct E as [y [Hy E]].
  apply In_range in Hx, Hy.
  destruct (cell g x y) as [v|]; simpl in E; [|discriminate E].
  destruct (v =? Sprites.MARIO); inversion E as [Hxy].
  rewrite <- Hpos, <- Hxy. simpl. lia.
Qed.

Section GameArea.

(** The game area of the emulator and an anchor that passes the
    boundary check. *)
Variable g : ndarray.
Variables mx my : Z.
Hypothesis game_shape : shape g = (16, 20).
Hypothesis row_in_bounds : 0 <= mx < 15.
Hypothesis column_in_bounds : 0 <= my < 15.

Lemma game_rows : Z.of_nat (rows g) = 16.
Proof. unfold shape in game_shape. inversion game_shape. reflexivity. Qed.

Lemma game_cols : Z.of_nat (cols g) = 20.
Proof. unfold shape in game_shape. inversion game_shape. reflexivity. Qed.

Lemma game_cell (x y : Z) :
  0 <= x < 16 -> 0 <= y < 20 -> cell g x y = Ret (at_ g x y).
Proof.
  intros Hx Hy. apply cell_in_range; [rewrite game_rows|rewrite game_cols]; lia.
Qed.

(** The scans whose range is computed from the shape stay inside the
    grid. *)
Lemma get_is_airborne_in_bounds : exists b, get_is_airborne g (mx, my) = Ret b.
Proof.
  unfold get_is_airborne. simpl. rewrite game_cell by lia. simpl.
  destruct (at_ g (mx + 1) my =? Sprites.AIR); eauto.
Qed.

Lemma get_enemy_info_in_bounds : exists e, get_enemy_info g (mx, my) = Ret e.
Proof.
  unfold get_enemy_info, or_return. rewrite game_shape. simpl snd.
  match goal with |- context [for_each ?l ?f] =>
    destruct (for_each_Ret l f) as [o Ho] end.
  - intros xoffset Hx. apply In_range in Hx. apply for_each_Ret.
    intros yoffset Hy. apply In_range in Hy.
    rewrite game_cell by lia. simpl.
    destruct (Sprites.GOOMBA <=? _); eauto.
  - rewrite Ho. simpl. eauto.
Qed.

Lemma get_pit_info_in_bounds : exists p, get_pit_info g (mx, my) = Ret p.
Proof.
  unfold get_pit_info, or_return. rewrite game_shape.
  match goal with |- context [for_each ?l ?f] =>
    destruct (for_each_Ret l f) as [o Ho] end.
  - intros yoffset Hy. apply In_range in Hy.
    rewrite game_cell by lia. cbn [bind].
    assert (Hpit : exists b,
               (if at_ g (mx + 1) (my + yoffset) =? Sprites.AIR
                then v2 <- cell g 15 (my + yoffset) ;; Ret (v2 =? Sprites.AIR)
                else Ret false) = Ret b).
    { destruct (_ =? Sprites.AIR); [|eauto].
      rewrite game_cell by lia. cbn [bind]. eauto. }
    destruct Hpit as [b Hpit]. rewrite Hpit. cbn [bind].
    destruct b; [|eauto].
    apply for_each_Ret. intros a Ha. apply In_range in Ha.
    apply for_each_Ret. intros boffset Hbo. apply In_range in Hbo.
    rewrite game_cell by lia. cbn [bind].
    destruct (Sprites.BLOCK <=? _); cbn [bind].
    + destruct (_ <=? Sprites.PIPE); eauto.
    + eauto.
  - rewrite Ho. cbn [bind]. eauto.
Qed.

(** The scan for a platform is six columns wide whatever the shape:
    from column 14 it reaches column 20.  Either it finds an edge in
    the columns 15 to 19 or it raises; it never yields the sentinel. *)
Lemma get_platform_above_from_column_14 :
  my = 14 -> 2 <= mx ->
  get_platform_above g (mx, my) = IndexError \/
  exists v c, get_platform_above g (mx, my) = Ret (v, c) /\ 1 <= c <= 5.
Proof.
  intros Hmy Hmx. subst my. unfold get_platform_above, or_return.
  change (range 6) with [0; 1; 2; 3; 4; 5].
  set (scan := fun y0 : Z =>
         for_each (range (mx - 1)) (fun x =>
           edge <- is_platform_edge g x (14 + (y0 + 1)) ;;
           if edge then Ret (Some (mx - x, y0 + 1)) else Ret None)).
  assert (Hfound : forall y0 p, scan y0 = Ret (Some p) -> snd p = y0 + 1).
  { intros y0 p E. apply for_each_Some_inv in E. destruct E as [x [_ E]].
    destruct (is_platform_edge g x (14 + (y0 + 1))) as [[|]|];
      simpl in E; inversion E. reflexivity. }
  assert (Hlast : scan 5 = IndexError).
  { unfold scan. destruct (range_cons (mx - 1)) as [l Hl]; [lia|].
    rewrite Hl. simpl. unfold is_platform_edge.
    rewrite cell_past_last_column by (rewrite game_cols; lia). reflexivity. }
  assert (Hstep : forall y0 rest,
             0 <= y0 <= 4 ->
             (for_each rest scan = IndexError \/
              exists v c, or_return (for_each rest scan) (100, 100) = Ret (v, c) /\
                          1 <= c <= 5) ->
             for_each (y0 :: rest) scan = IndexError \/
             exists v c, or_return (for_each (y0 :: rest) scan) (100, 100) = Ret (v, c) /\
                         1 <= c <= 5).
  { intros y0 rest Hy0 Hrest. simpl.
    destruct (scan y0) as [[[v c]|]|] eqn:E; [|exact Hrest|left; reflexivity].
    right. exists v, c. split; [reflexivity|].
    pose proof (Hfound _ _ E) as Hc. simpl in Hc. lia. }
  assert (H : for_each [0; 1; 2; 3; 4; 5] scan = IndexError \/
              exists v c, or_return (for_each [0; 1; 2; 3; 4; 5] scan) (100, 100) =
                          Ret (v, c) /\ 1 <= c <= 5).
  { repeat (apply Hstep; [lia|]). left. simpl. rewrite Hlast. reflexivity. }
  unfold or_return in H. destruct H as [H|H]; [left; rewrite H; reflexivity|right; exact H].
Qed.

End GameArea.

(** ** The height of an obstacle *)

Lemma for_each_first {A B : Type} (l1 l2 : list A) (a : A)
  (body : A -> result (option B)) (b : B) :
  (forall a', In a' l1 -> body a' = Ret None) ->
  body a = Ret (Some b) ->
  for_each (l1 ++ a :: l2) body = Ret (Some b).
Proof.
  intros H1 Ha. rewrite for_each_app, (for_each_None l1 body H1).
  simpl. rewrite Ha. reflexivity.
Qed.

Lemma range_split (n y : Z) :
  0 <= y < n -> exists l2, range n = range y ++ y :: l2.
Proof.
  intros H. unfold range.
  replace (Z.to_nat n) with (Z.to_nat y + S (Z.to_nat n - Z.to_nat y - 1))%nat by lia.
  rewrite seq_app, map_app. simpl.
  replace (Z.of_nat (Z.to_nat y)) with y by lia. eauto.
Qed.

Lemma stacked_step (g : ndarray) (x col : Z) (h : nat) :
  stacked g x col (S h) ->
  (exists v, cell g x col = Ret v /\ v <> Sprites.AIR) /\ stacked g (x - 1) col h.
Proof.
  intros [Hrun Htop]. split.
  - destruct (Hrun 0%nat) as [v Hv]; [lia|].
    exists v. rewrite Z.sub_0_r in Hv. exact Hv.
  - split.
    + intros i Hi. destruct (Hrun (S i)) as [v Hv]; [lia|].
      exists v. replace (x - 1 - Z.of_nat i) with (x - Z.of_nat (S i)) by lia. exact Hv.
    + replace (x - 1 - Z.of_nat h) with (x - Z.of_nat (S h)) by lia. exact Htop.
Qed.

Lemma walk_up_stacked (g : ndarray) (col : Z) (h : nat) :
  forall x : Z,
    stacked g x col h -> walk_up (S h) g x col = Some (Ret (x - Z.of_nat h)).
Proof.
  induction h as [|h IH]; intros x Hs.
  - destruct Hs as [_ Htop]. simpl in *. rewrite Z.sub_0_r in *.
    rewrite Htop. reflexivity.
  - apply stacked_step in Hs. destruct Hs as [[v [Hv Hne]] Hs].
    change (walk_up (S (S h)) g x col)
      with (match cell g x col with
            | IndexError => Some IndexError
            | Ret v => if negb (v =? Sprites.AIR) then walk_up (S h) g (x - 1) col
                       else Some (Ret x)
            end).
    rewrite Hv. apply Z.eqb_neq in Hne. rewrite Hne. simpl negb. cbv iota.
    rewrite (IH _ Hs). f_equal. f_equal. lia.
Qed.

(** The walk stops on the air above the stack, [h] rows up. *)
Lemma while_not_air_stacked (g : ndarray) (x col : Z) (h : nat) :
  stacked g x col h -> while_not_air g x col = Ret (x - Z.of_nat h).
Proof.
  intros Hs. pose proof (walk_up_stacked g col h x Hs) as Hw.
  pose proof (while_not_air_walk g x col) as Hf.
  destruct (Nat.le_ge_cases (S h) (walk_fuel g x)) as [Hle|Hle].
  - rewrite (walk_up_more_fuel g col _ _ _ _ Hw Hle) in Hf.
    congruence.
  - rewrite (walk_up_more_fuel g col _ _ _ _ Hf Hle) in Hw.
    congruence.
Qed.

(** The height [get_obstacle_info] reports for the first obstructed
    column is one more than the number of cells stacked in it. *)
Lemma get_obstacle_info_height (g : ndarray) (mx my y : Z) (h : nat) :
  0 <= y < 6 ->
  (forall y', 0 <= y' < y ->
     exists v, cell g mx (my + y') = Ret v /\
               (v =? Sprites.BRICK) || (v =? Sprites.PIPE) || (v =? Sprites.BLOCK) = false) ->
  (exists v, cell g mx (my + y) = Ret v /\
             (v =? Sprites.BRICK) || (v =? Sprites.PIPE) || (v =? Sprites.BLOCK) = true) ->
  stacked g mx (my + y) h ->
  get_obstacle_info g (mx, my) = Ret (y, Z.of_nat h + 1).
Proof.
  intros Hy Hbefore [v [Hv Hsolid]] Hs. unfold get_obstacle_info, or_return.
  destruct (range_split 6 y Hy) as [l2 Hl2]. rewrite Hl2.
  rewrite (for_each_first (range y) l2 y _ (y, Z.of_nat h + 1)); [reflexivity| |].
  - intros y' Hy'. apply In_range in Hy'.
    destruct (Hbefore y' Hy') as [v' [Hv' Hfree]].
    rewrite Hv'. cbn [bind]. rewrite Hfree. reflexivity.
  - rewrite Hv. cbn [bind]. rewrite Hsolid.
    rewrite (while_not_air_stacked g mx (my + y) h Hs). cbn [bind].
    f_equal. f_equal. f_equal. lia.
Qed.

(** The obstacle rule selects JUMP for twice the reported height. *)
Lemma obstacle_hop_duration (o : observations) (prev : option Actions) :
  rule_obstacle o = true ->
  select o prev = (JUMP, snd (obstacle_info o) * 2).
Proof.
  intros H. unfold select, matching_rule. rewrite H.
  destruct (enemy_info o) as [[? ?] ?], (pit_info o) as [[? ?] ?].
  destruct (obstacle_info o), (platform o). reflexivity.
Qed.

(** C3 - The reported height is not the number of stacked cells.  The
    pipe next to Mario is a stack of exactly two cells with air above,
    the player is grounded and no rule before the obstacle rule matches;
    the extractor reports the height 3, one more than the stack, and
    [choose_action] returns (JUMP, 6), twice the reported height, not
    the (JUMP, 4) of the specification. *)
Theorem two_cell_obstacle_reported_three :
  out_of_bounds (anchor screen_pipe) = false /\
  stacked screen_pipe 14 6 2 /\
  observe screen_pipe (anchor screen_pipe) = Ret seen_pipe /\
  obstacle_info seen_pipe = (1, 3) /\
  is_airborne seen_pipe = false /\
  select seen_pipe None = (JUMP, 3 * 2) /\
  fst (choose_action screen_pipe init) = Ret (JUMP, 6).
Proof.
  split; [vm_compute; reflexivity|]. split.
  - split.
    + intros i Hi. destruct i as [|[|i]]; [exists 14|exists 14|lia];
        (split; [vm_compute; reflexivity|discriminate]).
    + vm_compute. reflexivity.
  - repeat split; vm_compute; reflexivity.
Qed.

(** ** The flying threat *)

(** The rule that announces "Fly ahead" tests the code 19, the bee's. *)
Lemma flying_threat_is_bee (o : observations) :
  matching_rule o = Flying_threat ->
  snd (enemy_info o) = Sprites.BEE /\ snd (fst (enemy_info o)) < 4.
Proof.
  unfold matching_rule.
  destruct (rule_obstacle o); [discriminate|].
  destruct (rule_platform o); [discriminate|].
  destruct (rule_ground_enemy o); [discriminate|].
  destruct (rule_fly o) eqn:E; [|destruct (rule_pit o); discriminate].
  intros _. unfold rule_fly in E. destruct (enemy_info o) as [[e0 e1] e2].
  apply andb_true_iff in E. destruct E as [E1 E2].
  apply Z.eqb_eq in E1. apply Z.ltb_lt in E2. simpl. split; assumption.
Qed.

(** No grid with a fly as nearest enemy takes that rule. *)
Lemma fly_is_no_flying_threat (o : observations) :
  snd (enemy_info o) = Sprites.FLY -> matching_rule o <> Flying_threat.
Proof.
  intros Hfly Hm. apply flying_threat_is_bee in Hm.
  destruct Hm as [Hbee _]. rewrite Hfly in Hbee. discriminate Hbee.
Qed.

(** C6 - A fly ahead does not take the flying-threat rule.  A fly
    (code 18) is the nearest enemy, two rows up and two columns ahead,
    and the rules 1 to 4 do not fire; [choose_action] returns
    (RIGHT, 1), not the (JUMP, 2 + 10) of the specification.  The same
    screen with a bee (code 19) in the fly's place gets (JUMP, 12). *)
Theorem fly_ahead_not_jumped :
  out_of_bounds (anchor (screen_enemy Sprites.FLY)) = false /\
  observe (screen_enemy Sprites.FLY) (anchor (screen_enemy Sprites.FLY)) =
    Ret (seen_enemy Sprites.FLY) /\
  enemy_info (seen_enemy Sprites.FLY) = (2, 2, Sprites.FLY) /\
  rule_obstacle (seen_enemy Sprites.FLY) = false /\
  rule_platform (seen_enemy Sprites.FLY) = false /\
  rule_ground_enemy (seen_enemy Sprites.FLY) = false /\
  matching_rule (seen_enemy Sprites.FLY) = Default /\
  fst (choose_action (screen_enemy Sprites.FLY) init) = Ret (RIGHT, 1) /\
  fst (choose_action (screen_enemy Sprites.BEE) init) = Ret (JUMP, 12).
Proof.
  repeat split; vm_compute; reflexivity.
Qed.

(** ** The enemy search *)

(** [get_enemy_info] and the search of the specification agree unless
    row 0 holds an enemy ahead of the anchor: that row is the one the
    loop [for xoffset in range(mx)] leaves out. *)
Lemma get_enemy_info_but_row_0 (g : ndarray) (mx my : Z) :
  0 <= mx ->
  (forall y, my <= y < Z.of_nat (cols g) ->
     exists v, cell g 0 y = Ret v /\ v < Sprites.GOOMBA) ->
  get_enemy_info g (mx, my) = enemy_scan_spec g (mx, my).
Proof.
  intros Hmx Hrow0. unfold get_enemy_info, enemy_scan_spec, shape. simpl snd.
  rewrite (range_succ mx Hmx), for_each_app.
  match goal with |- or_return ?l _ = _ => destruct l as [[e|]|]; try reflexivity end.
  simpl for_each. replace (mx - mx) with 0 by lia.
  rewrite for_each_None; [reflexivity|].
  intros yoffset Hy. apply In_range in Hy.
  destruct (Hrow0 (my + yoffset)) as [v [Hv Hlt]]; [lia|].
  rewrite Hv. cbn [bind].
  replace (Sprites.GOOMBA <=? v) with false; [reflexivity|].
  symmetry. apply Z.leb_gt. exact Hlt.
Qed.

(** C9 - The enemy search leaves out the top row.  A bee sits in the
    top row, three columns ahead of the anchor (14, 5), and no other
    enemy is on the screen: the first enemy-class cell of the search the
    specification describes is that bee, (14, 3, 19), but
    [get_enemy_info] stops at row 1 and returns the sentinel. *)
Theorem top_row_enemy_not_seen :
  anchor screen_bee_top = (14, 5) /\
  cell screen_bee_top 0 8 = Ret Sprites.BEE /\
  enemy_scan_spec screen_bee_top (anchor screen_bee_top) = Ret (14, 3, Sprites.BEE) /\
  get_enemy_info screen_bee_top (anchor screen_bee_top) = Ret (100, 100, 100).
Proof.
  repeat split; vm_compute; reflexivity.
Qed.

(** * Further properties of the code *)

(** ** Loops over a range *)

Lemma for_each_None_inv {A B : Type} (l : list A) (body : A -> result (option B)) :
  for_each l body = Ret None -> forall a, In a l -> body a = Ret None.
Proof.
  induction l as [|a l IH]; simpl; intros H a' Ha'; [contradiction|].
  destruct (body a) as [[b|]|] eqn:E; try discriminate H.
  destruct Ha' as [Ha'|Ha']; [subst a'; exact E|apply IH; assumption].
Qed.

Lemma for_each_range_None (n : Z) {B : Type} (body : Z -> result (option B)) :
  for_each (range n) body = Ret None ->
  forall a, 0 <= a < n -> body a = Ret None.
Proof.
  intros H a Ha. apply (for_each_None_inv _ _ H). apply In_range. exact Ha.
Qed.

(** A loop over [range(n)] that returns does so at its first index whose
    body returns; the body fell through at every index before it. *)
Lemma for_each_range_Some_nat (n : nat) {B : Type} (body : Z -> result (option B))
  (b : B) :
  for_each (range (Z.of_nat n)) body = Ret (Some b) ->
  exists a, 0 <= a < Z.of_nat n /\ body a = Ret (Some b) /\
            forall a', 0 <= a' < a -> body a' = Ret None.
Proof.
  induction n as [|n IH]; intros H; [discriminate H|].
  replace (Z.of_nat (S n)) with (Z.of_nat n + 1) in H by lia.
  rewrite range_succ, for_each_app in H by lia.
  destruct (for_each (range (Z.of_nat n)) body) as [[b'|]|] eqn:E.
  - inversion H; subst b'. destruct (IH eq_refl) as [a [Ha [Hb Hbefore]]].
    exists a. split; [lia|]. split; assumption.
  - exists (Z.of_nat n). split; [lia|]. split.
    + simpl in H. destruct (body (Z.of_nat n)) as [[b'|]|]; congruence.
    + apply for_each_range_None. exact E.
  - discriminate H.
Qed.

Lemma for_each_range_Some (n : Z) {B : Type} (body : Z -> result (option B)) (b : B) :
  for_each (range n) body = Ret (Some b) ->
  exists a, 0 <= a < n /\ body a = Ret (Some b) /\
            forall a', 0 <= a' < a -> body a' = Ret None.
Proof.
  intros H. destruct (Z.le_gt_cases n 0) as [Hn|Hn].
  - unfold range in H. replace (Z.to_nat n) with O in H by lia. discriminate H.
  - replace n with (Z.of_nat (Z.to_nat n)) in H by lia.
    destruct (for_each_range_Some_nat _ body b H) as [a [Ha Hrest]].
    exists a. split; [lia|exact Hrest].
Qed.

Lemma or_return_inv {B : Type} (r : result (option B)) (dflt b : B) :
  or_return r dflt = Ret b ->
  (r = Ret None /\ b = dflt) \/ r = Ret (Some b).
Proof.
  unfold or_return. destruct r as [[b'|]|]; simpl; intros H; inversion H; auto.
Qed.

(** ** The player anchor *)

Lemma mario_body_None (g : ndarray) (x y : Z) :
  0 <= x < Z.of_nat (rows g) -> 0 <= y < Z.of_nat (cols g) ->
  (v <- cell g x y ;;
   if v =? Sprites.MARIO then Ret (Some (x + 1, y + 1)) else Ret None) = Ret None ->
  at_ g x y <> Sprites.MARIO.
Proof.
  intros Hx Hy. rewrite (cell_in_range g x y Hx Hy). cbn [bind].
  destruct (at_ g x y =? Sprites.MARIO) eqn:E; [discriminate|].
  intros _. apply Z.eqb_neq. exact E.
Qed.

Lemma mario_body_Some (g : ndarray) (x y : Z) (pos : Z * Z) :
  0 <= x < Z.of_nat (rows g) -> 0 <= y < Z.of_nat (cols g) ->
  (v <- cell g x y ;;
   if v =? Sprites.MARIO then Ret (Some (x + 1, y + 1)) else Ret None) = Ret (Some pos) ->
  at_ g x y = Sprites.MARIO /\ pos = (x + 1, y + 1).
Proof.
  intros Hx Hy. rewrite (cell_in_range g x y Hx Hy). cbn [bind].
  destruct (at_ g x y =? Sprites.MARIO) eqn:E; [|discriminate].
  intros H. inversion H. split; [apply Z.eqb_eq; exact E|reflexivity].
Qed.

(** X1 - [get_mario_pos] never reads outside the grid and returns the
    cell diagonally below the first tile of code MARIO in row-major
    order: no tile before it in its row and no tile of the rows above
    has that code.  Without such a tile it returns (0, 0). *)
Theorem get_mario_pos_first_tile (g : ndarray) :
  (get_mario_pos g = Ret (0, 0) /\
   forall x y, 0 <= x < Z.of_nat (rows g) -> 0 <= y < Z.of_nat (cols g) ->
               at_ g x y <> Sprites.MARIO) \/
  (exists x y,
     0 <= x < Z.of_nat (rows g) /\ 0 <= y < Z.of_nat (cols g) /\
     get_mario_pos g = Ret (x + 1, y + 1) /\
     at_ g x y = Sprites.MARIO /\
     (forall y', 0 <= y' < y -> at_ g x y' <> Sprites.MARIO) /\
     (forall x' y', 0 <= x' < x -> 0 <= y' < Z.of_nat (cols g) ->
                    at_ g x' y' <> Sprites.MARIO)).
Proof.
  unfold get_mario_pos, shape.
  match goal with |- context [or_return ?l _] => destruct l as [[pos|]|] eqn:E end.
  - right. apply for_each_range_Some in E. destruct E as [x [Hx [E Hrows]]].
    apply for_each_range_Some in E. destruct E as [y [Hy [E Hcols]]].
    apply (mario_body_Some g x y pos Hx Hy) in E. destruct E as [Hm Hpos].
    exists x, y. subst pos. repeat split; try lia; try assumption.
    + intros y' Hy'. apply (mario_body_None g x y'); [lia|lia|].
      apply Hcols. exact Hy'.
    + intros x' y' Hx' Hy'. apply (mario_body_None g x' y'); [lia|lia|].
      apply (for_each_range_None _ _ (Hrows x' Hx')). exact Hy'.
  - left. split; [reflexivity|].
    intros x y Hx Hy. apply (mario_body_None g x y Hx Hy).
    apply (for_each_range_None _ _ (for_each_range_None _ _ E x Hx)). exact Hy.
  - exfalso.
    destruct (for_each_Ret (range (Z.of_nat (rows g)))
                (fun x => for_each (range (Z.of_nat (cols g)))
                   (fun y => v <- cell g x y ;;
                      if v =? Sprites.MARIO then Ret (Some (x + 1, y + 1)) else Ret None)))
      as [o Ho].
    + intros x Hx. apply In_range in Hx. apply for_each_Ret.
      intros y Hy. apply In_range in Hy.
      rewrite (cell_in_range g x y Hx Hy). cbn [bind].
      destruct (at_ g x y =? Sprites.MARIO); eauto.
    + rewrite Ho in E. discriminate E.
Qed.

(** ** What the enemy search returns *)

Lemma enemy_body_None (g : ndarray) (x y : Z) (p : Z -> Z * Z * Z) :
  (v <- cell g x y ;;
   if Sprites.GOOMBA <=? v then Ret (Some (p v)) else Ret None) = Ret None ->
  exists v, cell g x y = Ret v /\ v < Sprites.GOOMBA.
Proof.
  destruct (cell g x y) as [v|]; cbn [bind]; [|discriminate].
  destruct (Sprites.GOOMBA <=? v) eqn:E; [discriminate|].
  intros _. exists v. split; [reflexivity|apply Z.leb_gt; exact E].
Qed.

Lemma enemy_body_Some (g : ndarray) (x y : Z) (p : Z -> Z * Z * Z) (e : Z * Z * Z) :
  (v <- cell g x y ;;
   if Sprites.GOOMBA <=? v then Ret (Some (p v)) else Ret None) = Ret (Some e) ->
  exists v, cell g x y = Ret v /\ Sprites.GOOMBA <= v /\ e = p v.
Proof.
  destruct (cell g x y) as [v|]; cbn [bind]; [|discriminate].
  destruct (Sprites.GOOMBA <=? v) eqn:E; [|discriminate].
  intros H. inversion H. exists v.
  split; [reflexivity|]. split; [apply Z.leb_le; exact E|reflexivity].
Qed.

(** X2 - When [get_enemy_info] returns, either it returns the sentinel
    and no cell of the rows [mx] down to 1, from column [my] to the last
    one, has an enemy code (15 or more), or it returns the offsets and
    the code of such a cell, and no cell before it in the search order
    (the columns before it in its row, and the whole rows between it and
    the anchor's row) has an enemy code. *)
Theorem get_enemy_info_first_enemy (g : ndarray) (mx my : Z) (e : Z * Z * Z) :
  get_enemy_info g (mx, my) = Ret e ->
  (e = (100, 100, 100) /\
   forall r c, 0 <= r < mx -> 0 <= c < Z.of_nat (cols g) - my ->
               exists v, cell g (mx - r) (my + c) = Ret v /\ v < Sprites.GOOMBA) \/
  (exists r c v,
     e = (r, c, v) /\ 0 <= r < mx /\ 0 <= c < Z.of_nat (cols g) - my /\
     cell g (mx - r) (my + c) = Ret v /\ Sprites.GOOMBA <= v /\
     (forall c', 0 <= c' < c ->
        exists v', cell g (mx - r) (my + c') = Ret v' /\ v' < Sprites.GOOMBA) /\
     (forall r' c', 0 <= r' < r -> 0 <= c' < Z.of_nat (cols g) - my ->
        exists v', cell g (mx - r') (my + c') = Ret v' /\ v' < Sprites.GOOMBA)).
Proof.
  unfold get_enemy_info, shape. simpl snd. intros H.
  apply or_return_inv in H. destruct H as [[H He]|H].
  - left. split; [exact He|]. intros r c Hr Hc.
    pose proof (for_each_range_None _ _ (for_each_range_None _ _ H r Hr) c Hc) as Hb.
    apply (enemy_body_None g (mx - r) (my + c) (fun v => (mx - (mx - r), c, v)) Hb).
  - right. apply for_each_range_Some in H. destruct H as [r [Hr [H Hrows]]].
    apply for_each_range_Some in H. destruct H as [c [Hc [H Hcols]]].
    apply (enemy_body_Some g (mx - r) (my + c) (fun v => (mx - (mx - r), c, v))) in H.
    destruct H as [v [Hv [Hge He]]].
    exists r, c, v. split; [rewrite He; f_equal; f_equal; lia|].
    repeat split; try lia; try assumption.
    + intros c' Hc'.
      apply (enemy_body_None g (mx - r) (my + c') (fun v => (mx - (mx - r), c', v))).
      apply Hcols. exact Hc'.
    + intros r' c' Hr' Hc'.
      apply (enemy_body_None g (mx - r') (my + c') (fun v => (mx - (mx - r'), c', v))).
      apply (for_each_range_None _ _ (Hrows r' Hr')). exact Hc'.
Qed.

Lemma get_enemy_info_first_enemy_witness :
  exists r c v,
    (2, 2, 19) = (r, c, v) /\ 0 <= r < 14 /\
    cell (screen_enemy 19) (14 - r) (5 + c) = Ret v /\ Sprites.GOOMBA <= v.
Proof.
  assert (H : get_enemy_info (screen_enemy 19) (14, 5) = Ret (2, 2, 19))
    by (vm_compute; reflexivity).
  destruct (get_enemy_info_first_enemy (screen_enemy 19) 14 5 (2, 2, 19) H)
    as [[Hs _]|[r [c [v [He [Hr [_ [Hv [Hge _]]]]]]]]]; [discriminate Hs|].
  exists r, c, v. repeat split; try assumption; lia.
Defined.

(** ** What the obstacle scan returns *)

Lemma obstacle_tile_not_air (v : Z) : obstacle_tile v = true -> v <> Sprites.AIR.
Proof.
  unfold obstacle_tile. rewrite !orb_true_iff, !Z.eqb_eq.
  intros [[H|H]|H]; subst v; discriminate.
Qed.

(** A walk that ends on a row climbed a stack and stopped on the air
    above it. *)
Lemma walk_up_Ret_inv (g : ndarray) (col : Z) (fuel : nat) :
  forall x x' : Z,
    walk_up fuel g x col = Some (Ret x') ->
    exists h : nat, x' = x - Z.of_nat h /\ stacked g x col h.
Proof.
  induction fuel as [|fuel IH]; intros x x' H; [discriminate H|].
  simpl in H. destruct (cell g x col) as [v|] eqn:Hc; [|discriminate H].
  destruct (v =? Sprites.AIR) eqn:Hv; simpl in H.
  - inversion H; subst x'. exists 0%nat. split; [simpl; lia|].
    split; [intros i Hi; lia|].
    simpl. rewrite Z.sub_0_r, Hc. apply Z.eqb_eq in Hv. rewrite Hv. reflexivity.
  - destruct (IH _ _ H) as [h [Hx' [Hrun Htop]]].
    exists (S h). split; [lia|]. split.
    + intros i Hi. destruct i as [|i].
      * exists v. simpl. rewrite Z.sub_0_r. split; [exact Hc|apply Z.eqb_neq; exact Hv].
      * destruct (Hrun i) as [w Hw]; [lia|]. exists w.
        replace (x - Z.of_nat (S i)) with (x - 1 - Z.of_nat i) by lia. exact Hw.
    + replace (x - Z.of_nat (S h)) with (x - 1 - Z.of_nat h) by lia. exact Htop.
Qed.

Lemma while_not_air_Ret_inv (g : ndarray) (x col x' : Z) :
  while_not_air g x col = Ret x' ->
  exists h : nat, x' = x - Z.of_nat h /\ stacked g x col h.
Proof.
  intros H. pose proof (while_not_air_walk g x col) as Hw. rewrite H in Hw.
  apply (walk_up_Ret_inv g col _ _ _ Hw).
Qed.

Lemma obstacle_body_None (g : ndarray) (mx col y : Z) :
  (val <- cell g mx col ;;
   if (val =? Sprites.BRICK) || (val =? Sprites.PIPE) || (val =? Sprites.BLOCK)
   then x <- while_not_air g mx col ;; Ret (Some (y, mx - x + 1))
   else Ret None) = Ret None ->
  exists v, cell g mx col = Ret v /\ obstacle_tile v = false.
Proof.
  destruct (cell g mx col) as [v|]; cbn [bind]; [|discriminate].
  fold (obstacle_tile v). destruct (obstacle_tile v) eqn:E.
  - destruct (while_not_air g mx col); cbn [bind]; discriminate.
  - intros _. exists v. split; [reflexivity|exact E].
Qed.

Lemma obstacle_body_Some (g : ndarray) (mx col y : Z) (p : Z * Z) :
  (val <- cell g mx col ;;
   if (val =? Sprites.BRICK) || (val =? Sprites.PIPE) || (val =? Sprites.BLOCK)
   then x <- while_not_air g mx col ;; Ret (Some (y, mx - x + 1))
   else Ret None) = Ret (Some p) ->
  exists v (h : nat),
    cell g mx col = Ret v /\ obstacle_tile v = true /\
    stacked g mx col h /\ (1 <= h)%nat /\ p = (y, Z.of_nat h + 1).
Proof.
  destruct (cell g mx col) as [v|] eqn:Hc; cbn [bind]; [|discriminate].
  fold (obstacle_tile v). destruct (obstacle_tile v) eqn:E; [|discriminate].
  destruct (while_not_air g mx col) as [x|] eqn:Hw; cbn [bind]; [|discriminate].
  intros H. inversion H; subst p.
  destruct (while_not_air_Ret_inv g mx col x Hw) as [h [Hx Hs]].
  exists v, h. split; [reflexivity|]. split; [exact E|]. split; [exact Hs|].
  split.
  - destruct h as [|h]; [|lia]. exfalso.
    destruct Hs as [_ Htop]. simpl in Htop. rewrite Z.sub_0_r, Hc in Htop.
    inversion Htop as [Hair]. apply (obstacle_tile_not_air v E Hair).
  - f_equal. lia.
Qed.

(** X3 - When [get_obstacle_info] returns, either it returns the
    sentinel and none of the six cells of the anchor's row from column
    [my] on is a brick, a pipe or a block, or it returns the offset [y]
    of the first of them that is, and a height of at least 2: one more
    than the number of cells that are not air stacked in that column
    from the anchor's row up to the first air. *)
Theorem get_obstacle_info_first_obstacle (g : ndarray) (mx my y height : Z) :
  get_obstacle_info g (mx, my) = Ret (y, height) ->
  ((y, height) = (100, 100) /\
   forall y', 0 <= y' < 6 ->
     exists v, cell g mx (my + y') = Ret v /\ obstacle_tile v = false) \/
  (0 <= y < 6 /\ 2 <= height /\
   (exists v, cell g mx (my + y) = Ret v /\ obstacle_tile v = true) /\
   (forall y', 0 <= y' < y ->
      exists v, cell g mx (my + y') = Ret v /\ obstacle_tile v = false) /\
   stacked g mx (my + y) (Z.to_nat (height - 1))).
Proof.
  unfold get_obstacle_info. intros H.
  apply or_return_inv in H. destruct H as [[H He]|H].
  - left. split; [exact He|]. intros y' Hy'.
    apply (obstacle_body_None g mx (my + y') y').
    apply (for_each_range_None _ _ H). exact Hy'.
  - right. apply for_each_range_Some in H. destruct H as [y0 [Hy0 [H Hbefore]]].
    apply obstacle_body_Some in H.
    destruct H as [v [h [Hv [Ht [Hs [Hh Hp]]]]]]. inversion Hp; subst y0 height.
    split; [exact Hy0|]. split; [lia|]. split; [exists v; split; assumption|].
    split.
    + intros y' Hy'. apply (obstacle_body_None g mx (my + y') y').
      apply Hbefore. exact Hy'.
    + replace (Z.to_nat (Z.of_nat h + 1 - 1)) with h by lia. exact Hs.
Qed.

Lemma get_obstacle_info_first_obstacle_witness :
  2 <= 3 /\ stacked screen_pipe 14 (5 + 1) (Z.to_nat (3 - 1)).
Proof.
  assert (H : get_obstacle_info screen_pipe (14, 5) = Ret (1, 3))
    by (vm_compute; reflexivity).
  destruct (get_obstacle_info_first_obstacle screen_pipe 14 5 1 3 H)
    as [[Hs _]|[_ [Hh [_ [_ Hst]]]]]; [discriminate Hs|].
  split; [exact Hh|exact Hst].
Defined.

(** ** What the platform scan returns *)

Lemma is_platform_edge_true (g : ndarray) (x col : Z) :
  is_platform_edge g x col = Ret true ->
  (cell g x col = Ret Sprites.BRICK \/ cell g x col = Ret Sprites.BLOCK) /\
  cell g (x - 1) col = Ret Sprites.AIR /\
  cell g x (col - 1) = Ret Sprites.AIR.
Proof.
  unfold is_platform_edge.
  destruct (cell g x col) as [v1|] eqn:E1; cbn [bind]; [|discriminate].
  destruct (v1 =? Sprites.BRICK) eqn:Ebrick; cbn [bind].
  - destruct (cell g (x - 1) col) as [v3|] eqn:E3; cbn [bind]; [|discriminate].
    destruct (v3 =? Sprites.AIR) eqn:Ev3; [|discriminate].
    destruct (cell g x (col - 1)) as [v4|] eqn:E4; cbn [bind]; [|discriminate].
    intros H. inversion H as [Ev4].
    apply Z.eqb_eq in Ebrick, Ev3, Ev4. subst v1 v3 v4. auto.
  - destruct (v1 =? Sprites.BLOCK) eqn:Eblock; [|discriminate].
    destruct (cell g (x - 1) col) as [v3|] eqn:E3; cbn [bind]; [|discriminate].
    destruct (v3 =? Sprites.AIR) eqn:Ev3; [|discriminate].
    destruct (cell g x (col - 1)) as [v4|] eqn:E4; cbn [bind]; [|discriminate].
    intros H. inversion H as [Ev4].
    apply Z.eqb_eq in Eblock, Ev3, Ev4. subst v1 v3 v4. auto.
Qed.

(** X4 - When [get_platform_above] returns, either it returns the
    sentinel and no cell of the rows 0 to [mx - 2] in the six columns
    after the anchor's passes the edge test, or it returns (v, c) with
    [1 <= c <= 6] and [2 <= v <= mx]: the cell [v] rows up and [c]
    columns ahead is a brick or a block, the cell above it is air and
    the cell to its left is air.  An edge in the row just above the
    anchor's is never reported. *)
Theorem get_platform_above_edge (g : ndarray) (mx my v c : Z) :
  get_platform_above g (mx, my) = Ret (v, c) ->
  ((v, c) = (100, 100) /\
   forall c' x, 1 <= c' <= 6 -> 0 <= x < mx - 1 ->
                is_platform_edge g x (my + c') = Ret false) \/
  (1 <= c <= 6 /\ 2 <= v <= mx /\
   (cell g (mx - v) (my + c) = Ret Sprites.BRICK \/
    cell g (mx - v) (my + c) = Ret Sprites.BLOCK) /\
   cell g (mx - v - 1) (my + c) = Ret Sprites.AIR /\
   cell g (mx - v) (my + c - 1) = Ret Sprites.AIR).
Proof.
  unfold get_platform_above. intros H.
  apply or_return_inv in H. destruct H as [[H He]|H].
  - left. split; [exact He|]. intros c' x Hc' Hx.
    assert (Hy0 : 0 <= c' - 1 < 6) by lia.
    pose proof (for_each_range_None _ _ (for_each_range_None _ _ H (c' - 1) Hy0) x Hx)
      as Hb.
    cbv beta zeta in Hb. replace (c' - 1 + 1) with c' in Hb by lia.
    destruct (is_platform_edge g x (my + c')) as [[|]|]; cbn [bind] in Hb;
      [discriminate Hb|reflexivity|discriminate Hb].
  - right. apply for_each_range_Some in H. destruct H as [y0 [Hy0 [H _]]].
    apply for_each_range_Some in H. destruct H as [x [Hx [H _]]].
    cbv beta zeta in H.
    destruct (is_platform_edge g x (my + (y0 + 1))) as [[|]|] eqn:E;
      cbn [bind] in H; try discriminate H.
    inversion H; subst v c.
    apply is_platform_edge_true in E. destruct E as [E1 [E2 E3]].
    replace (mx - (mx - x)) with x by lia.
    split; [lia|]. split; [lia|]. split; [exact E1|]. split; assumption.
Qed.

Lemma get_platform_above_edge_witness :
  2 <= 3 <= 14 /\ cell screen_ledge (14 - 3) (5 + 2) = Ret Sprites.BRICK.
Proof.
  assert (H : get_platform_above screen_ledge (14, 5) = Ret (3, 2))
    by (vm_compute; reflexivity).
  destruct (get_platform_above_edge screen_ledge 14 5 3 2 H)
    as [[Hs _]|[_ [Hv _]]]; [discriminate Hs|].
  split; [exact Hv|vm_compute; reflexivity].
Defined.

(** ** What the pit scan returns *)

(** X5 - When [get_pit_info] returns something else than the sentinel,
    it returns (p, dv, s) where the column [p] ahead is air both in the
    row under the anchor's and in row 15, the cell [dv] rows above the
    anchor's row and [s] columns ahead, with [p <= s], has a code from
    BLOCK to PIPE, and that cell is the first one with such a code in
    row-major order among the columns from the pit's on: the far edge is
    the topmost such tile, not the nearest. *)
Theorem get_pit_info_far_edge (g : ndarray) (mx my p dv s : Z) :
  get_pit_info g (mx, my) = Ret (p, dv, s) ->
  (p, dv, s) = (100, 100, 100) \/
  (0 <= p <= s /\ s < Z.of_nat (cols g) - my /\
   0 <= mx - dv < Z.of_nat (rows g) /\
   cell g (mx + 1) (my + p) = Ret Sprites.AIR /\
   cell g 15 (my + p) = Ret Sprites.AIR /\
   (exists w, cell g (mx - dv) (my + s) = Ret w /\ Sprites.BLOCK <= w <= Sprites.PIPE) /\
   (forall b, my + p <= b < my + s ->
      exists w, cell g (mx - dv) b = Ret w /\ ~ Sprites.BLOCK <= w <= Sprites.PIPE) /\
   (forall a b, 0 <= a < mx - dv -> my + p <= b < Z.of_nat (cols g) ->
      exists w, cell g a b = Ret w /\ ~ Sprites.BLOCK <= w <= Sprites.PIPE)).
Proof.
  unfold get_pit_info, shape. intros H.
  apply or_return_inv in H. destruct H as [[H He]|H]; [left; exact He|right].
  apply for_each_range_Some in H. destruct H as [yo [Hyo [H _]]].
  cbv beta zeta in H.
  destruct (cell g (mx + 1) (my + yo)) as [v1|] eqn:E1; cbn [bind] in H;
    [|discriminate H].
  destruct (v1 =? Sprites.AIR) eqn:Ev1; cbn [bind] in H; [|discriminate H].
  destruct (cell g 15 (my + yo)) as [v2|] eqn:E2; cbn [bind] in H; [|discriminate H].
  destruct (v2 =? Sprites.AIR) eqn:Ev2; [|discriminate H].
  apply Z.eqb_eq in Ev1, Ev2. subst v1 v2.
  assert (Hinner : forall a bo q,
            (w1 <- cell g a (my + yo + bo) ;;
             in_range <-
               (if Sprites.BLOCK <=? w1
                then w2 <- cell g a (my + yo + bo) ;; Ret (w2 <=? Sprites.PIPE)
                else Ret false) ;;
             if in_range then Ret (Some (yo, mx - a, my + yo + bo - my))
             else Ret None) = Ret q ->
            exists w, cell g a (my + yo + bo) = Ret w /\
                      match q with
                      | Some e => Sprites.BLOCK <= w <= Sprites.PIPE /\
                                  e = (yo, mx - a, my + yo + bo - my)
                      | None => ~ Sprites.BLOCK <= w <= Sprites.PIPE
                      end).
  { intros a bo q. destruct (cell g a (my + yo + bo)) as [w|]; cbn [bind];
      [|discriminate].
    destruct (Sprites.BLOCK <=? w) eqn:Eb; cbn [bind].
    - destruct (w <=? Sprites.PIPE) eqn:Ep; intros Hq; inversion Hq; exists w;
        (split; [reflexivity|]).
      + apply Z.leb_le in Eb, Ep. split; [lia|reflexivity].
      + apply Z.leb_le in Eb. apply Z.leb_gt in Ep. lia.
    - intros Hq. inversion Hq. exists w. split; [reflexivity|].
      apply Z.leb_gt in Eb. lia. }
  apply for_each_range_Some in H. destruct H as [a [Ha [H Hrows]]].
  apply for_each_range_Some in H. destruct H as [bo [Hbo [H Hcols]]].
  cbv beta zeta in H. apply Hinner in H. destruct H as [w [Hw [Hr He]]].
  inversion He; subst p dv s.
  replace (mx - (mx - a)) with a by lia.
  replace (my + (my + yo + bo - my)) with (my + yo + bo) by lia.
  split; [lia|]. split; [lia|]. split; [lia|]. split; [exact E1|]. split; [exact E2|].
  split; [exists w; split; assumption|]. split.
  - intros b Hb. assert (Hb' : 0 <= b - (my + yo) < bo) by lia.
    pose proof (Hcols _ Hb') as Hn. cbv beta zeta in Hn.
    apply Hinner in Hn. destruct Hn as [w' [Hw' Hnr]].
    replace (my + yo + (b - (my + yo))) with b in Hw' by lia.
    exists w'. split; assumption.
  - intros a' b Ha' Hb.
    assert (Hb' : 0 <= b - (my + yo) < Z.of_nat (cols g) - (my + yo)) by lia.
    pose proof (for_each_range_None _ _ (Hrows a' Ha') _ Hb') as Hn.
    cbv beta zeta in Hn. apply Hinner in Hn. destruct Hn as [w' [Hw' Hnr]].
    replace (my + yo + (b - (my + yo))) with b in Hw' by lia.
    exists w'. split; assumption.
Qed.

Lemma get_pit_info_far_edge_witness :
  cell screen_pit (14 + 1) (5 + 1) = Ret Sprites.AIR /\
  exists w, cell screen_pit (14 - 5) (5 + 4) = Ret w /\ Sprites.BLOCK <= w <= Sprites.PIPE.
Proof.
  assert (H : get_pit_info screen_pit (14, 5) = Ret (1, 5, 4))
    by (vm_compute; reflexivity).
  destruct (get_pit_info_far_edge screen_pit 14 5 1 5 4 H)
    as [Hs|[_ [_ [_ [Hair [_ [Hedge _]]]]]]]; [discriminate Hs|].
  split; [exact Hair|exact Hedge].
Defined.

(** ** What [choose_action] can return *)

Lemma select_actions (o : observations) (prev : option Actions) :
  select o prev = (RIGHT, 1) \/
  (exists d, select o prev = (JUMP, d)) \/
  (select o prev = (LEFT, 1) /\ prev = Some JUMP).
Proof.
  unfold select.
  destruct (enemy_info o) as [[e0 e1] e2], (pit_info o) as [[p0 p1] p2].
  destruct (obstacle_info o) as [o0 o1], (platform o) as [v c].
  destruct (matching_rule o); eauto.
  destruct (prev_is prev JUMP) eqn:E; [|eauto].
  right. right. split; [reflexivity|apply prev_is_true; exact E].
Qed.

Lemma guard_actions (prev : option Actions) (cmd : Actions * Z) :
  guard prev cmd = cmd \/ guard prev cmd = (RIGHT, 1).
Proof.
  destruct cmd as [a d]. unfold guard.
  destruct (prev_is prev a && Actions_eqb a JUMP); auto.
Qed.

(** X6 - Whatever the grid and the state, a command [choose_action]
    returns has the action RIGHT, JUMP or LEFT, never UP or SPRINT, and
    LEFT comes only with duration 1 and only when the previous action
    was JUMP. *)
Theorem choose_action_commands (g : ndarray) (self self' : MarioExpert)
  (a : Actions) (d : Z) :
  choose_action g self = (Ret (a, d), self') ->
  (a, d) = (RIGHT, 1) \/ a = JUMP \/
  ((a, d) = (LEFT, 1) /\ prev_action self = Some JUMP).
Proof.
  intros E. destruct (out_of_bounds (anchor g)) eqn:Hb.
  - rewrite (choose_action_boundary g self Hb) in E. inversion E. auto.
  - destruct (observe g (anchor g)) as [o|] eqn:Ho.
    + rewrite (choose_action_in_bounds g self o Hb Ho) in E.
      injection E as Hcmd Hself. clear Hself.
      destruct (guard_actions (prev_action self) (select o (prev_action self)))
        as [Hg|Hg]; rewrite Hg in Hcmd; [|left; symmetry; exact Hcmd].
      destruct (select_actions o (prev_action self)) as [Hs|[[d' Hs]|[Hs Hp]]];
        rewrite Hs in Hcmd; inversion Hcmd; auto.
    + rewrite (choose_action_raises g self Hb Ho) in E. discriminate E.
Qed.

Lemma choose_action_commands_witness :
  (JUMP, 7) = (RIGHT, 1) \/ JUMP = JUMP \/
  ((JUMP, 7) = (LEFT, 1) /\ prev_action init = Some JUMP).
Proof.
  apply (choose_action_commands screen_pit init (snd (choose_action screen_pit init))).
  vm_compute. reflexivity.
Defined.

(** X7 - The ground-threat rule is not subject to the guard.  On a grid
    in bounds where the obstacle and platform rules do not match and the
    nearest enemy has a code below 18 less than two columns ahead,
    [choose_action] returns (LEFT, 1) when the previous action was JUMP
    and (JUMP, 1) otherwise. *)
Theorem ground_threat_command (g : ndarray) (self : MarioExpert) (o : observations) :
  out_of_bounds (anchor g) = false ->
  observe g (anchor g) = Ret o ->
  rule_obstacle o = false -> rule_platform o = false ->
  rule_ground_enemy o = true ->
  fst (choose_action g self) =
  Ret (if prev_is (prev_action self) JUMP then (LEFT, 1) else (JUMP, 1)).
Proof.
  intros Hb Ho H2 H3 H4.
  rewrite (choose_action_in_bounds g self o Hb Ho). simpl. f_equal.
  unfold select, matching_rule. rewrite H2, H3, H4.
  destruct (enemy_info o) as [[e0 e1] e2], (pit_info o) as [[p0 p1] p2].
  destruct (obstacle_info o) as [o0 o1], (platform o) as [v c].
  destruct (prev_action self) as [[| | | |]|]; reflexivity.
Qed.

Lemma ground_threat_command_witness :
  fst (choose_action screen_goomba init) = Ret (JUMP, 1) /\
  fst (choose_action screen_goomba (after JUMP)) = Ret (LEFT, 1).
Proof.
  assert (Hb : out_of_bounds (anchor screen_goomba) = false) by (vm_compute; reflexivity).
  assert (Ho : observe screen_goomba (anchor screen_goomba) = Ret seen_goomba)
    by (vm_compute; reflexivity).
  split.
  - apply (ground_threat_command screen_goomba init seen_goomba Hb Ho); reflexivity.
  - apply (ground_threat_command screen_goomba (after JUMP) seen_goomba Hb Ho);
      reflexivity.
Defined.

(** ** Durations *)

Lemma obstacle_height_at_least_2 (g : ndarray) (pos : Z * Z) (y h : Z) :
  get_obstacle_info g pos = Ret (y, h) -> 2 <= h.
Proof.
  destruct pos as [mx my]. unfold get_obstacle_info. intros H.
  apply or_return_inv in H. destruct H as [[_ He]|H]; [inversion He; lia|].
  apply for_each_range_Some in H. destruct H as [y0 [_ [H _]]].
  apply obstacle_body_Some in H. destruct H as [v [n [_ [_ [_ [Hn Hp]]]]]].
  inversion Hp. lia.
Qed.

Lemma platform_distance_at_least_2 (g : ndarray) (pos : Z * Z) (v c : Z) :
  get_platform_above g pos = Ret (v, c) -> 2 <= v.
Proof.
  destruct pos as [mx my]. unfold get_platform_above. intros H.
  apply or_return_inv in H. destruct H as [[_ He]|H]; [inversion He; lia|].
  apply for_each_range_Some in H. destruct H as [y0 [_ [H _]]].
  apply for_each_range_Some in H. destruct H as [x [Hx [H _]]].
  cbv beta zeta in H.
  destruct (is_platform_edge g x (my + (y0 + 1))) as [[|]|];
    cbn [bind] in H; try discriminate H.
  inversion H. lia.
Qed.

Lemma enemy_row_offset_nonneg (g : ndarray) (pos : Z * Z) (r c v : Z) :
  get_enemy_info g pos = Ret (r, c, v) -> 0 <= r.
Proof.
  destruct pos as [mx my]. unfold get_enemy_info. intros H.
  apply or_return_inv in H. destruct H as [[_ He]|H]; [inversion He; lia|].
  apply for_each_range_Some in H. destruct H as [xo [Hxo [H _]]].
  apply for_each_range_Some in H. destruct H as [yo [_ [H _]]].
  apply (enemy_body_Some g (mx - xo) (my + yo) (fun v => (mx - (mx - xo), yo, v))) in H.
  destruct H as [w [_ [_ He]]]. inversion He. lia.
Qed.

Lemma get_pythag_dist_floor (v s : Z) : 4 <= get_pythag_dist (Z.max 4 v) s.
Proof.
  destruct (get_pythag_dist_ceil (Z.max 4 v) s) as [H0 [H1 _]].
  rewrite !Z.pow_2_r in H1. nia.
Qed.

Lemma observe_inv (g : ndarray) (pos : Z * Z) (o : observations) :
  observe g pos = Ret o ->
  get_enemy_info g pos = Ret (enemy_info o) /\
  get_pit_info g pos = Ret (pit_info o) /\
  get_obstacle_info g pos = Ret (obstacle_info o) /\
  get_is_airborne g pos = Ret (is_airborne o) /\
  get_platform_above g pos = Ret (platform o).
Proof.
  unfold observe.
  destruct (get_enemy_info g pos) as [e|]; cbn [bind]; [|discriminate].
  destruct (get_pit_info g pos) as [p|]; cbn [bind]; [|discriminate].
  destruct (get_obstacle_info g pos) as [ob|]; cbn [bind]; [|discriminate].
  destruct (get_is_airborne g pos) as [b|]; cbn [bind]; [|discriminate].
  destruct (get_platform_above g pos) as [pl|]; cbn [bind]; [|discriminate].
  intros H. inversion H. simpl. repeat split; reflexivity.
Qed.

Lemma select_duration (g : ndarray) (pos : Z * Z) (o : observations)
  (prev : option Actions) :
  observe g pos = Ret o -> 1 <= snd (select o prev).
Proof.
  intros Ho. apply observe_inv in Ho. destruct Ho as [He [_ [Hob [_ Hpl]]]].
  unfold select.
  destruct (enemy_info o) as [[e0 e1] e2], (pit_info o) as [[p0 p1] p2].
  destruct (obstacle_info o) as [o0 o1], (platform o) as [v c].
  apply enemy_row_offset_nonneg in He. apply obstacle_height_at_least_2 in Hob.
  apply platform_distance_at_least_2 in Hpl.
  destruct (matching_rule o); simpl; try lia.
  - destruct (p0 <? c); simpl; lia.
  - destruct (prev_is prev JUMP); simpl; lia.
  - pose proof (get_pythag_dist_floor p1 p2). lia.
Qed.

Lemma choose_action_duration_aux (g : ndarray) (self self' : MarioExpert)
  (a : Actions) (d : Z) :
  choose_action g self = (Ret (a, d), self') -> 1 <= d.
Proof.
  intros E. destruct (out_of_bounds (anchor g)) eqn:Hb.
  - rewrite (choose_action_boundary g self Hb) in E. inversion E. lia.
  - destruct (observe g (anchor g)) as [o|] eqn:Ho.
    + rewrite (choose_action_in_bounds g self o Hb Ho) in E.
      injection E as Hcmd _.
      pose proof (select_duration g (anchor g) o (prev_action self) Ho) as Hd.
      destruct (guard_actions (prev_action self) (select o (prev_action self)))
        as [Hg|Hg]; rewrite Hg in Hcmd.
      * rewrite Hcmd in Hd. exact Hd.
      * inversion Hcmd. lia.
    + rewrite (choose_action_raises g self Hb Ho) in E. discriminate E.
Qed.

(** X8 - Every command [choose_action] returns has a duration of at
    least 1, on every grid and in every state: the heights, distances
    and offsets the extractors report keep each rule's duration
    positive, so [run_action] always lets the emulator advance. *)
Theorem choose_action_duration (g : ndarray) (self self' : MarioExpert)
  (a : Actions) (d : Z) :
  choose_action g self = (Ret (a, d), self') -> 1 <= d.
Proof.
  intros E. destruct (out_of_bounds (anchor g)) eqn:Hb.
  - rewrite (choose_action_boundary g self Hb) in E. inversion E. lia.
  - destruct (observe g (anchor g)) as [o|] eqn:Ho.
    + rewrite (choose_action_in_bounds g self o Hb Ho) in E.
      injection E as Hcmd _.
      pose proof (select_duration g (anchor g) o (prev_action self) Ho) as Hd.
      destruct (guard_actions (prev_action self) (select o (prev_action self)))
        as [Hg|Hg]; rewrite Hg in Hcmd.
      * rewrite Hcmd in Hd. exact Hd.
      * inversion Hcmd. lia.
    + rewrite (choose_action_raises g self Hb Ho) in E. discriminate E.
Qed.

Lemma choose_action_duration_witness : 1 <= 6.
Proof.
  apply (choose_action_duration screen_pipe init
           (snd (choose_action screen_pipe init)) JUMP 6).
  vm_compute. reflexivity.
Defined.

(** X9 - On every path, exception included, [choose_action] stores the
    grid it was given in [game_area] and the anchor in [mario_pos]; it
    changes [prev_action] only when it returns past the boundary
    check. *)
Theorem choose_action_fields (g : ndarray) (self : MarioExpert) :
  game_area (snd (choose_action g self)) = Some g /\
  mario_pos (snd (choose_action g self)) = Some (anchor g) /\
  (fst (choose_action g self) = IndexError \/ out_of_bounds (anchor g) = true ->
   prev_action (snd (choose_action g self)) = prev_action self).
Proof.
  destruct (out_of_bounds (anchor g)) eqn:Hb.
  - rewrite (choose_action_boundary g self Hb). simpl. auto.
  - destruct (observe g (anchor g)) as [o|] eqn:Ho.
    + rewrite (choose_action_in_bounds g self o Hb Ho). simpl.
      split; [reflexivity|]. split; [reflexivity|].
      intros [H|H]; discriminate H.
    + rewrite (choose_action_raises g self Hb Ho). simpl. auto.
Qed.

Lemma choose_action_fields_witness :
  prev_action (snd (choose_action screen_flat_right (after JUMP))) = Some JUMP.
Proof.
  apply (proj2 (proj2 (choose_action_fields screen_flat_right (after JUMP)))).
  left. vm_compute. reflexivity.
Defined.

(** ** The controller *)

Lemma ticks_repeat (act_freq duration : Z) :
  ticks act_freq duration = repeat tick (Z.to_nat (act_freq * duration)).
Proof.
  unfold ticks, range. rewrite map_map.
  generalize (Z.to_nat (act_freq * duration)) as n. intros n.
  generalize 0%nat as start.
  induction n as [|n IH]; intros start; simpl; [reflexivity|].
  rewrite IH. reflexivity.
Qed.

Lemma count_ticks_app (l1 l2 : list pyboy_call) :
  count_ticks (l1 ++ l2) = (count_ticks l1 + count_ticks l2)%nat.
Proof.
  induction l1 as [|[e|] l1 IH]; simpl; [reflexivity|exact IH|rewrite IH; reflexivity].
Qed.

Lemma count_ticks_repeat (n : nat) : count_ticks (repeat tick n) = n.
Proof.
  induction n as [|n IH]; simpl; [reflexivity|rewrite IH; reflexivity].
Qed.

(** [run_action] never raises, and lets the emulator advance
    [act_freq * duration] times, not at all when that is negative. *)
Lemma run_action_count_ticks (act_freq : Z) (action : Actions) (duration : Z) :
  exists calls,
    run_action act_freq action duration = Ret calls /\
    count_ticks calls = Z.to_nat (act_freq * duration).
Proof.
  destruct action; eexists; (split; [reflexivity|]);
    rewrite !count_ticks_app, ticks_repeat, count_ticks_repeat; simpl; lia.
Qed.

(** X10 - Whatever the action and the duration, [run_action] raises no
    exception and sends, in this order: the press events of the action
    (right, B and A for JUMP; right and B for RIGHT; the action's own
    button otherwise), then [act_freq * duration] ticks, none when that
    product is not positive, then the release event of every button it
    pressed, in the reverse order of the presses. *)
Theorem run_action_press_tick_release (act_freq : Z) (action : Actions) (duration : Z) :
  exists presses,
    presses =
      match action with
      | JUMP => [PRESS_ARROW_RIGHT; PRESS_BUTTON_B; PRESS_BUTTON_A]
      | RIGHT => [PRESS_ARROW_RIGHT; PRESS_BUTTON_B]
      | LEFT => [PRESS_ARROW_LEFT]
      | UP => [PRESS_ARROW_UP]
      | SPRINT => [PRESS_BUTTON_B]
      end /\
    run_action act_freq action duration =
    Ret (map send_input presses
         ++ repeat tick (Z.to_nat (act_freq * duration))
         ++ map send_input (rev (map release_of presses))).
Proof.
  destruct action; eexists; (split; [reflexivity|]);
    unfold run_action; cbn -[ticks]; rewrite ticks_repeat; reflexivity.
Qed.

(** X11 - A step that completes sends the emulator as many ticks as the
    duration of the command [choose_action] returned, hence at least
    one; a step raises only when [choose_action] does. *)
Theorem step_advances (g : ndarray) (self : MarioExpert) :
  match fst (choose_action g self) with
  | Ret (a, d) =>
      exists calls,
        step g self = (Ret calls, snd (choose_action g self)) /\
        count_ticks calls = Z.to_nat d /\ (1 <= count_ticks calls)%nat
  | IndexError => fst (step g self) = IndexError
  end.
Proof.
  unfold step. destruct (choose_action g self) as [[[a d]|] self'] eqn:E; simpl;
    [|reflexivity].
  destruct (run_action_count_ticks 1 a d) as [calls [Hcalls Hcount]].
  exists calls. rewrite Hcalls. split; [reflexivity|].
  pose proof (choose_action_duration_aux g self self' a d E) as Hd.
  replace (1 * d) with d in Hcount by lia. split; [exact Hcount|lia].
Qed.

(** ** When the scans stay inside the grid *)

(** A negative row index inside [-rows, 0) reads from the bottom of the
    grid. *)
Lemma cell_wrap_row (g : ndarray) (x y : Z) :
  - Z.of_nat (rows g) <= x < 0 -> 0 <= y < Z.of_nat (cols g) ->
  cell g x y = Ret (at_ g (x + Z.of_nat (rows g)) y).
Proof.
  intros Hx Hy. unfold cell, py_index.
  replace (0 <=? x) with false by (symmetry; apply Z.leb_gt; lia).
  replace (- Z.of_nat (rows g) <=? x) with true by (symmetry; apply Z.leb_le; lia).
  replace (x <? 0) with true by (symmetry; apply Z.ltb_lt; lia).
  replace (0 <=? y) with true by (symmetry; apply Z.leb_le; lia).
  replace (y <? Z.of_nat (cols g)) with true by (symmetry; apply Z.ltb_lt; lia).
  reflexivity.
Qed.

Lemma cell_valid (g : ndarray) (x y : Z) :
  - Z.of_nat (rows g) <= x < Z.of_nat (rows g) -> 0 <= y < Z.of_nat (cols g) ->
  exists v, cell g x y = Ret v.
Proof.
  intros Hx Hy. destruct (Z.lt_ge_cases x 0).
  - rewrite cell_wrap_row by lia. eauto.
  - rewrite cell_in_range by lia. eauto.
Qed.

(** The walk returns when it meets air before it leaves the grid. *)
Lemma walk_up_finds_air (g : ndarray) (col : Z) (n : nat) :
  forall x : Z,
    (forall i, 0 <= i <= Z.of_nat n -> exists v, cell g (x - i) col = Ret v) ->
    cell g (x - Z.of_nat n) col = Ret Sprites.AIR ->
    exists x', walk_up (S n) g x col = Some (Ret x').
Proof.
  induction n as [|n IH]; intros x Hvalid Hair.
  - simpl in *. rewrite Z.sub_0_r in Hair. rewrite Hair. simpl. eauto.
  - destruct (Hvalid 0) as [v Hv]; [lia|]. rewrite Z.sub_0_r in Hv.
    change (walk_up (S (S n)) g x col)
      with (match cell g x col with
            | IndexError => Some IndexError
            | Ret v => if negb (v =? Sprites.AIR) then walk_up (S n) g (x - 1) col
                       else Some (Ret x)
            end).
    rewrite Hv. destruct (v =? Sprites.AIR); simpl negb; cbv iota; [eauto|].
    apply IH.
    + intros i Hi. destruct (Hvalid (i + 1)) as [w Hw]; [lia|].
      exists w. replace (x - 1 - i) with (x - (i + 1)) by lia. exact Hw.
    + replace (x - 1 - Z.of_nat n) with (x - Z.of_nat (S n)) by lia. exact Hair.
Qed.

Lemma while_not_air_returns (g : ndarray) (x col : Z) (n : nat) :
  (forall i, 0 <= i <= Z.of_nat n -> exists v, cell g (x - i) col = Ret v) ->
  cell g (x - Z.of_nat n) col = Ret Sprites.AIR ->
  exists x', while_not_air g x col = Ret x'.
Proof.
  intros Hvalid Hair.
  destruct (walk_up_finds_air g col n x Hvalid Hair) as [x' Hw].
  pose proof (while_not_air_walk g x col) as Hf. exists x'.
  destruct (Nat.le_ge_cases (S n) (walk_fuel g x)) as [Hle|Hle].
  - rewrite (walk_up_more_fuel g col _ _ _ _ Hw Hle) in Hf. congruence.
  - rewrite (walk_up_more_fuel g col _ _ _ _ Hf Hle) in Hw. congruence.
Qed.

(** On the game area the walk covers the whole column, the rows below
    the start through the wrap-around: it returns as soon as the column
    holds air in some row. *)
Lemma while_not_air_column (g : ndarray) (x col r : Z) :
  shape g = (16, 20) -> 0 <= x < 16 -> 0 <= col < 20 ->
  0 <= r < 16 -> at_ g r col = Sprites.AIR ->
  exists x', while_not_air g x col = Ret x'.
Proof.
  intros Hs Hx Hcol Hr Hair.
  pose proof (game_rows g Hs) as Hrows. pose proof (game_cols g Hs) as Hcols.
  destruct (Z.le_gt_cases r x) as [Hle|Hgt].
  - apply (while_not_air_returns g x col (Z.to_nat (x - r))).
    + intros i Hi. apply cell_valid; lia.
    + replace (x - Z.of_nat (Z.to_nat (x - r))) with r by lia.
      rewrite (game_cell g Hs) by lia. rewrite Hair. reflexivity.
  - apply (while_not_air_returns g x col (Z.to_nat (x - (r - 16)))).
    + intros i Hi. apply cell_valid; lia.
    + replace (x - Z.of_nat (Z.to_nat (x - (r - 16)))) with (r - 16) by lia.
      rewrite cell_wrap_row by lia. rewrite Hrows.
      replace (r - 16 + 16) with r by lia. rewrite Hair. reflexivity.
Qed.

Lemma get_obstacle_info_returns (g : ndarray) (mx my : Z) :
  shape g = (16, 20) -> 0 <= mx < 16 -> 0 <= my < 15 ->
  (forall y, 0 <= y < 6 -> obstacle_tile (at_ g mx (my + y)) = true ->
     exists r, 0 <= r < 16 /\ at_ g r (my + y) = Sprites.AIR) ->
  exists ob, get_obstacle_info g (mx, my) = Ret ob.
Proof.
  intros Hs Hmx Hmy Hair. unfold get_obstacle_info, or_return.
  match goal with |- context [for_each ?l ?f] =>
    destruct (for_each_Ret l f) as [o Ho] end.
  - intros y Hy. apply In_range in Hy.
    rewrite (game_cell g Hs) by lia. cbn [bind].
    fold (obstacle_tile (at_ g mx (my + y))).
    destruct (obstacle_tile (at_ g mx (my + y))) eqn:Et; [|eauto].
    destruct (Hair y Hy Et) as [r [Hr Hrair]].
    destruct (while_not_air_column g mx (my + y) r Hs) as [x' Hx']; try lia; try assumption.
    rewrite Hx'. cbn [bind]. eauto.
  - rewrite Ho. cbn [bind]. eauto.
Qed.

Lemma get_platform_above_returns (g : ndarray) (mx my : Z) :
  shape g = (16, 20) -> 0 <= mx < 16 -> 0 <= my <= 13 ->
  exists pl, get_platform_above g (mx, my) = Ret pl.
Proof.
  intros Hs Hmx Hmy. unfold get_platform_above, or_return.
  pose proof (game_rows g Hs) as Hrows. pose proof (game_cols g Hs) as Hcols.
  match goal with |- context [for_each ?l ?f] =>
    destruct (for_each_Ret l f) as [o Ho] end.
  - intros y0 Hy0. apply In_range in Hy0. apply for_each_Ret.
    intros x Hx. apply In_range in Hx. cbv beta zeta.
    assert (He : exists b, is_platform_edge g x (my + (y0 + 1)) = Ret b).
    { unfold is_platform_edge. rewrite (game_cell g Hs) by lia. cbn [bind].
      destruct (cell_valid g (x - 1) (my + (y0 + 1))) as [v3 Hv3]; [lia|lia|].
      destruct (cell_valid g x (my + (y0 + 1) - 1)) as [v4 Hv4]; [lia|lia|].
      rewrite Hv3, Hv4.
      destruct (at_ g x (my + (y0 + 1)) =? Sprites.BRICK); cbn [bind].
      - destruct (v3 =? Sprites.AIR); cbn [bind]; eauto.
      - destruct (at_ g x (my + (y0 + 1)) =? Sprites.BLOCK); cbn [bind]; [|eauto].
        destruct (v3 =? Sprites.AIR); cbn [bind]; eauto. }
    destruct He as [b Hb]. rewrite Hb. cbn [bind]. destruct b; eauto.
  - rewrite Ho. cbn [bind]. eauto.
Qed.

(** X13 - On a game area of 16 by 20 tiles, [choose_action] returns a
    command, with no exception, whenever the anchor is at column 13 at
    most and every one of the six columns from the anchor's on that
    holds an obstacle tile in the anchor's row also holds air in some
    row. *)
Theorem choose_action_returns (g : ndarray) (self : MarioExpert) :
  shape g = (16, 20) ->
  snd (anchor g) <= 13 ->
  (forall y, 0 <= y < 6 ->
     obstacle_tile (at_ g (fst (anchor g)) (snd (anchor g) + y)) = true ->
     exists r, 0 <= r < 16 /\ at_ g r (snd (anchor g) + y) = Sprites.AIR) ->
  exists cmd, fst (choose_action g self) = Ret cmd.
Proof.
  intros Hs Hcol Hair.
  destruct (out_of_bounds (anchor g)) eqn:Hb;
    [rewrite (choose_action_boundary g self Hb); simpl; eauto|].
  apply out_of_bounds_false in Hb. pose proof (anchor_nonneg g) as Hn.
  assert (Hb' : out_of_bounds (anchor g) = false) by (apply out_of_bounds_false; exact Hb).
  destruct (anchor g) as [mx my] eqn:Ha. simpl in *.
  assert (Ho : exists o, observe g (mx, my) = Ret o).
  { unfold observe.
    destruct (get_enemy_info_in_bounds g mx my Hs) as [e He]; [lia|lia|].
    destruct (get_pit_info_in_bounds g mx my Hs) as [p Hp]; [lia|lia|].
    destruct (get_obstacle_info_returns g mx my Hs) as [ob Hob]; [lia|lia|exact Hair|].
    destruct (get_is_airborne_in_bounds g mx my Hs) as [b Hair']; [lia|lia|].
    destruct (get_platform_above_returns g mx my Hs) as [pl Hpl]; [lia|lia|].
    rewrite He, Hp, Hob, Hair', Hpl. cbn [bind]. eauto. }
  destruct Ho as [o Ho]. rewrite <- Ha in Ho, Hb'.
  rewrite (choose_action_in_bounds g self o Hb' Ho). simpl. eauto.
Qed.

Lemma choose_action_returns_witness :
  exists cmd, fst (choose_action screen_pipe init) = Ret cmd.
Proof.
  assert (Hs : shape screen_pipe = (16, 20)) by reflexivity.
  assert (Hc : snd (anchor screen_pipe) <= 13) by (vm_compute; discriminate).
  assert (Hair : forall y, 0 <= y < 6 ->
            obstacle_tile (at_ screen_pipe (fst (anchor screen_pipe))
                             (snd (anchor screen_pipe) + y)) = true ->
            exists r, 0 <= r < 16 /\
                      at_ screen_pipe r (snd (anchor screen_pipe) + y) = Sprites.AIR).
  { intros y Hy _. exists 0. split; [lia|].
    assert (E : y = 0 \/ y = 1 \/ y = 2 \/ y = 3 \/ y = 4 \/ y = 5) by lia.
    destruct E as [E|[E|[E|[E|[E|E]]]]]; subst y; vm_compute; reflexivity. }
  exact (choose_action_returns screen_pipe init Hs Hc Hair).
Defined.

(** ** The upward walk *)

(** X14 - The loop of [get_obstacle_info] ends on every grid, from
    every row and in every column: with [x + rows + 2] iterations or
    more at its disposal its outcome is fixed, and it is either
    [IndexError] or a row inside [-rows, x] whose cell is air. *)
Theorem upward_walk_terminates (g : ndarray) (x col : Z) :
  exists r,
    (forall fuel, (walk_fuel g x <= fuel)%nat -> walk_up fuel g x col = Some r) /\
    (r = IndexError \/
     exists x', r = Ret x' /\ - Z.of_nat (rows g) <= x' <= x /\
                cell g x' col = Ret Sprites.AIR).
Proof.
  exists (while_not_air g x col). split.
  - intros fuel Hle.
    apply (walk_up_more_fuel g col _ _ _ _ (while_not_air_walk g x col) Hle).
  - destruct (while_not_air g x col) as [x'|] eqn:E; [right|left; reflexivity].
    destruct (while_not_air_Ret_inv g x col x' E) as [h [Hx' [_ Htop]]].
    exists x'. split; [reflexivity|]. rewrite <- Hx' in Htop.
    split; [|exact Htop]. apply cell_Ret_inv in Htop. lia.
Qed.

(** ** The guard after a boundary cycle *)

(** X15 - A cycle that stops at the boundary check does not clear a
    recorded JUMP: when the previous action is JUMP, the anchor of one
    grid is out of bounds and the cascade selects JUMP on the next grid,
    the first call returns (RIGHT, 1) and the second one (RIGHT, 1) as
    well, the guard firing although the command before it was RIGHT. *)
Theorem jump_suppressed_after_boundary (g1 g2 : ndarray) (self : MarioExpert)
  (o : observations) :
  prev_action self = Some JUMP ->
  out_of_bounds (anchor g1) = true ->
  out_of_bounds (anchor g2) = false ->
  observe g2 (anchor g2) = Ret o ->
  fst (select o (Some JUMP)) = JUMP ->
  fst (choose_action g1 self) = Ret (RIGHT, 1) /\
  fst (choose_action g2 (snd (choose_action g1 self))) = Ret (RIGHT, 1).
Proof.
  intros Hp H1 H2 Ho Hj.
  rewrite (choose_action_boundary g1 self H1). simpl. split; [reflexivity|].
  rewrite (choose_action_in_bounds g2 _ o H2 Ho). simpl. rewrite Hp.
  destruct (select o (Some JUMP)) as [a d]. simpl in Hj. subst a. reflexivity.
Qed.

Lemma jump_suppressed_after_boundary_witness :
  fst (choose_action screen_falling (after JUMP)) = Ret (RIGHT, 1) /\
  fst (choose_action screen_pit (snd (choose_action screen_falling (after JUMP)))) =
  Ret (RIGHT, 1).
Proof.
  assert (H1 : out_of_bounds (anchor screen_falling) = true) by (vm_compute; reflexivity).
  assert (H2 : out_of_bounds (anchor screen_pit) = false) by (vm_compute; reflexivity).
  assert (Ho : observe screen_pit (anchor screen_pit) = Ret seen_pit)
    by (vm_compute; reflexivity).
  apply (jump_suppressed_after_boundary screen_falling screen_pit (after JUMP) seen_pit
           eq_refl H1 H2 Ho).
  vm_compute. reflexivity.
Defined.

(** ** Sentinels *)

(** X16 - No sentinel matches a rule: on a grid in bounds where the
    enemy, pit, obstacle and platform extractors all return their
    sentinel, [choose_action] returns (RIGHT, 1) whatever the previous
    action and whether or not the player is airborne. *)
Theorem nothing_seen_moves_right (g : ndarray) (self : MarioExpert) (o : observations) :
  out_of_bounds (anchor g) = false ->
  observe g (anchor g) = Ret o ->
  enemy_info o = (100, 100, 100) -> pit_info o = (100, 100, 100) ->
  obstacle_info o = (100, 100) -> platform o = (100, 100) ->
  matching_rule o = Default /\
  fst (choose_action g self) = Ret (RIGHT, 1).
Proof.
  intros Hb Ho He Hp Hob Hpl.
  assert (Hm : matching_rule o = Default).
  { unfold matching_rule, rule_obstacle, rule_platform, rule_ground_enemy,
      rule_fly, rule_pit.
    rewrite He, Hp, Hob, Hpl. destruct (is_airborne o); reflexivity. }
  split; [exact Hm|].
  rewrite (choose_action_in_bounds g self o Hb Ho). simpl.
  unfold select. rewrite Hm, He, Hp, Hob, Hpl.
  destruct (prev_action self) as [[| | | |]|]; reflexivity.
Qed.

Lemma nothing_seen_moves_right_witness :
  fst (choose_action screen_flat (after JUMP)) = Ret (RIGHT, 1).
Proof.
  assert (Hb : out_of_bounds (anchor screen_flat) = false) by (vm_compute; reflexivity).
  assert (Ho : observe screen_flat (anchor screen_flat) =
               Ret (mk_observations (100, 100, 100) (100, 100, 100) (100, 100)
                      false (100, 100)))
    by (vm_compute; reflexivity).
  apply (proj2 (nothing_seen_moves_right screen_flat (after JUMP) _ Hb Ho
                  eq_refl eq_refl eq_refl eq_refl)).
Defined.

Lemma get_mario_pos_first_tile_witness :
  exists x y,
    get_mario_pos screen_pit = Ret (x + 1, y + 1) /\ at_ screen_pit x y = Sprites.MARIO.
Proof.
  destruct (get_mario_pos_first_tile screen_pit)
    as [[H _]|[x [y [_ [_ [H [Hm _]]]]]]].
  - vm_compute in H. discriminate H.
  - exists x, y. split; assumption.
Defined.

Lemma upward_walk_terminates_witness :
  exists r, walk_up 40 screen_wall 14 6 = Some r.
Proof.
  destruct (upward_walk_terminates screen_wall 14 6) as [r [H _]].
  exists r. apply H. unfold walk_fuel. simpl. lia.
Defined.

(** ** Line 208 in double precision *)

(** Up to 4096 the double precision computation is exact, by running it
    on every value. *)
Lemma double_exact_range : forallb double_exact_at (range 4097) = true.
Proof. vm_compute. reflexivity. Qed.

(** For [a^2 + b^2 <= 4096], so for all offsets up to 45, line 208
    raises nothing and yields [get_pythag_dist a b]. *)
Lemma get_pythag_dist_double_exact (a b : Z) :
  a ^ 2 + b ^ 2 <= 4096 ->
  get_pythag_dist_double a b = Value (get_pythag_dist a b).
Proof.
  intros Hn.
  assert (Hin : In (a ^ 2 + b ^ 2) (range 4097)).
  { apply In_range. rewrite !Z.pow_2_r in *. nia. }
  pose proof (proj1 (forallb_forall double_exact_at (range 4097))
                double_exact_range _ Hin) as He.
  unfold double_exact_at in He. unfold get_pythag_dist_double, get_pythag_dist.
  destruct (math_sqrt (a ^ 2 + b ^ 2)) as [x| |]; try discriminate He.
  destruct (math_ceil x) as [d| |]; try discriminate He.
  apply Z.eqb_eq in He. rewrite He. reflexivity.
Qed.

(** Beyond the range of exact doubles the two part: past 2^26 the
    rounded root of a non-square can be an integer, past 2^53 the result
    can fall below an argument, and a sum of squares too large for a
    double raises. *)
Lemma double_precision_limits :
  get_pythag_dist_double (2 ^ 26 + 1) 1 = Value (2 ^ 26 + 1) /\
  get_pythag_dist (2 ^ 26 + 1) 1 = 2 ^ 26 + 2 /\
  get_pythag_dist_double (2 ^ 53 + 1) 0 = Value (2 ^ 53) /\
  get_pythag_dist_double (10 ^ 200) 0 = OverflowError.
Proof.
  repeat split; vm_compute; reflexivity.
Qed.

(** X12 - For [a^2 + b^2 <= 4096], which covers every pair of offsets
    up to 45, the double precision computation of line 208 raises no
    exception and returns the integer ceiling of the square root of
    [a^2 + b^2]; the value does not depend on the order or the signs of
    the arguments and lies between the larger of their absolute values
    and the sum of them. *)
Theorem get_pythag_dist_double_bounds (a b : Z) :
  a ^ 2 + b ^ 2 <= 4096 ->
  exists d,
    get_pythag_dist_double a b = Value d /\
    get_pythag_dist_double b a = Value d /\
    get_pythag_dist_double (Z.abs a) (Z.abs b) = Value d /\
    is_ceil_sqrt (a ^ 2 + b ^ 2) d /\
    Z.max (Z.abs a) (Z.abs b) <= d <= Z.abs a + Z.abs b.
Proof.
  intros Hn. exists (get_pythag_dist a b).
  assert (Hba : get_pythag_dist b a = get_pythag_dist a b)
    by (unfold get_pythag_dist; f_equal; lia).
  assert (Habs : get_pythag_dist (Z.abs a) (Z.abs b) = get_pythag_dist a b)
    by (unfold get_pythag_dist; f_equal; rewrite !Z.pow_2_r, !Z.abs_square; reflexivity).
  split; [apply get_pythag_dist_double_exact; exact Hn|].
  split; [rewrite <- Hba; apply get_pythag_dist_double_exact; lia|].
  split.
  { rewrite <- Habs. apply get_pythag_dist_double_exact.
    rewrite !Z.pow_2_r, !Z.abs_square. rewrite !Z.pow_2_r in Hn. exact Hn. }
  split; [apply get_pythag_dist_ceil|].
  destruct (get_pythag_dist_ceil a b) as [H0 [H1 H2]].
  rewrite !Z.pow_2_r in *.
  pose proof (Z.abs_square a) as Ha. pose proof (Z.abs_square b) as Hb.
  pose proof (Z.abs_nonneg a) as Hna. pose proof (Z.abs_nonneg b) as Hnb.
  split.
  - apply Z.max_lub; nia.
  - apply H2; nia.
Qed.

Lemma get_pythag_dist_double_bounds_witness :
  exists d, get_pythag_dist_double 5 (-4) = Value d /\ 5 <= d <= 9.
Proof.
  assert (Hn : 5 ^ 2 + (-4) ^ 2 <= 4096) by (vm_compute; discriminate).
  destruct (get_pythag_dist_double_bounds 5 (-4) Hn) as [d [H1 [_ [_ [_ H5]]]]].
  exists d. split; [exact H1|exact H5].
Defined.

(** ** The pit rule on the game area *)

(** What [get_pit_info] reports lies inside the grid. *)
Lemma get_pit_info_bounds (g : ndarray) (mx my p dv s : Z) :
  get_pit_info g (mx, my) = Ret (p, dv, s) ->
  (p, dv, s) = (100, 100, 100) \/
  (0 <= p <= s /\ s < Z.of_nat (cols g) - my /\ 0 <= mx - dv < Z.of_nat (rows g)).
Proof.
  unfold get_pit_info, shape. intros H.
  apply or_return_inv in H. destruct H as [[H He]|H]; [left; exact He|right].
  apply for_each_range_Some in H. destruct H as [yo [Hyo [H _]]].
  cbv beta zeta in H.
  destruct (cell g (mx + 1) (my + yo)) as [v1|]; cbn [bind] in H; [|discriminate H].
  destruct (v1 =? Sprites.AIR); cbn [bind] in H; [|discriminate H].
  destruct (cell g 15 (my + yo)) as [v2|]; cbn [bind] in H; [|discriminate H].
  destruct (v2 =? Sprites.AIR); [|discriminate H].
  apply for_each_range_Some in H. destruct H as [a [Ha [H _]]].
  apply for_each_range_Some in H. destruct H as [bo [Hbo [H _]]].
  cbv beta zeta in H.
  destruct (cell g a (my + yo + bo)) as [w|]; cbn [bind] in H; [|discriminate H].
  destruct (Sprites.BLOCK <=? w); cbn [bind] in H; [|discriminate H].
  destruct (w <=? Sprites.PIPE); [|discriminate H].
  inversion H; subst p dv s. lia.
Qed.

(** C7, as stated, fails: on [screen_pit] the pit starts one column
    ahead with the far edge reported at vertical offset 5 and span 4,
    the player is grounded and no rule before the pit rule matches, yet
    after a JUMP [choose_action] returns (RIGHT, 1), not (JUMP, 7): the
    guard replaces the pit rule's JUMP. *)
Lemma pit_jump_replaced_after_jump :
  out_of_bounds (anchor screen_pit) = false /\
  observe screen_pit (anchor screen_pit) = Ret seen_pit /\
  pit_info seen_pit = (1, 5, 4) /\ is_airborne seen_pit = false /\
  rule_obstacle seen_pit = false /\ rule_platform seen_pit = false /\
  rule_ground_enemy seen_pit = false /\ rule_fly seen_pit = false /\
  fst (choose_action screen_pit (after JUMP)) = Ret (RIGHT, 1) /\
  fst (choose_action screen_pit (after JUMP)) <> Ret (JUMP, 7).
Proof.
  assert (E : fst (choose_action screen_pit (after JUMP)) = Ret (RIGHT, 1))
    by (vm_compute; reflexivity).
  repeat split; try (vm_compute; reflexivity).
  rewrite E. discriminate.
Qed.

(** C7, amended - The pit rule.  On every grid in bounds where
    [get_pit_info] reports a pit less than two columns ahead, the
    player is grounded and none of the rules before the pit rule
    matches, the cascade selects JUMP for ceil(sqrt(max(4, v)^2 + s^2))
    cycles, [v] and [s] being the reported vertical offset and span of
    the far edge, and [choose_action] returns that command when the
    previous action is not JUMP.  With the report (1, 5, 4) the
    duration is 7.  On the game area of 16 by 20 tiles the double
    precision computation of line 208 yields that same duration. *)
Theorem pit_jump (g : ndarray) (self : MarioExpert) (o : observations)
  (start v s : Z) :
  out_of_bounds (anchor g) = false ->
  observe g (anchor g) = Ret o ->
  pit_info o = (start, v, s) -> start < 2 -> is_airborne o = false ->
  rule_obstacle o = false -> rule_platform o = false ->
  rule_ground_enemy o = false -> rule_fly o = false ->
  let d := get_pythag_dist (Z.max 4 v) s in
  select o (prev_action self) = (JUMP, d) /\
  (prev_action self <> Some JUMP -> fst (choose_action g self) = Ret (JUMP, d)) /\
  is_ceil_sqrt ((Z.max 4 v) ^ 2 + s ^ 2) d /\
  ((start, v, s) = (1, 5, 4) -> d = 7) /\
  (shape g = (16, 20) -> get_pythag_dist_double (Z.max 4 v) s = Value d).
Proof.
  intros Hb Ho Hpit Hstart Hair H2 H3 H4 H5 d.
  assert (Hsel : select o (prev_action self) = (JUMP, d)).
  { unfold select. rewrite (matching_rule_pit o H2 H3 H4 H5).
    - rewrite Hpit. destruct (enemy_info o) as [[? ?] ?].
      destruct (obstacle_info o), (platform o). reflexivity.
    - unfold rule_pit. rewrite Hpit, Hair.
      apply andb_true_intro. split; [apply Z.ltb_lt; exact Hstart|reflexivity]. }
  split; [exact Hsel|]. split; [|split; [|split]].
  - intros Hprev. rewrite (choose_action_in_bounds g self o Hb Ho). simpl.
    rewrite Hsel. rewrite guard_passes; [reflexivity|].
    intros [Hp _]. apply Hprev. exact Hp.
  - apply get_pythag_dist_ceil.
  - intros E. inversion E. subst d. subst. reflexivity.
  - intros Hs. apply get_pythag_dist_double_exact.
    pose proof (game_rows g Hs) as Hrows. pose proof (game_cols g Hs) as Hcols.
    pose proof (anchor_nonneg g) as Hn. apply out_of_bounds_false in Hb.
    apply observe_inv in Ho. destruct Ho as [_ [Hp _]]. rewrite Hpit in Hp.
    destruct (anchor g) as [mx my]. simpl in Hn, Hb.
    apply get_pit_info_bounds in Hp. destruct Hp as [Hp|Hp]; [inversion Hp; lia|].
    assert (Hv : 4 <= Z.max 4 v <= 14) by lia.
    assert (Hs' : 0 <= s <= 19) by lia.
    rewrite !Z.pow_2_r. nia.
Qed.

Lemma pit_jump_witness :
  fst (choose_action screen_pit init) = Ret (JUMP, 7) /\
  get_pythag_dist_double (Z.max 4 5) 4 = Value 7.
Proof.
  assert (Hb : out_of_bounds (anchor screen_pit) = false) by (vm_compute; reflexivity).
  assert (Ho : observe screen_pit (anchor screen_pit) = Ret seen_pit)
    by (vm_compute; reflexivity).
  assert (Hs : 1 < 2) by lia.
  destruct (pit_jump screen_pit init seen_pit 1 5 4 Hb Ho
              eq_refl Hs eq_refl eq_refl eq_refl eq_refl eq_refl)
    as [_ [H [_ [_ Hd]]]].
  split.
  - apply H. simpl. discriminate.
  - apply Hd. reflexivity.
Defined.
